(** * Random Connect: the matchmaking and relay engine of [random_connect.py]

    A shallow embedding of [RandomConnectManager] (src/mcp-bearer-token/
    random_connect.py) and the properties its specification states about it.

    Text.  A Python [str] is a sequence of Unicode code points; it is modelled
    as [list N].  The classes the code relies on ([\d], [\s], [\b] of [re],
    [str.strip], [str.lower]) are spelled out for ASCII; for the other code
    points they are read from a table [unicode_db], a parameter of the whole
    development, so every theorem holds for whatever table the interpreter
    ships.

    State.  The manager's attributes form the record [RandomConnectManager];
    methods are functions in a state monad whose failure value stands for a
    call that never returns (a thread that waits for the non-reentrant
    [threading.Lock] it already holds). *)

From Stdlib Require Import String Ascii ZArith NArith Lia DecimalString.
From stdpp Require Import gmap list.

#[local] Set Warnings "-clear-no-such-hyp".

Local Open Scope N_scope.

(** ** Text *)

Abbreviation str := (list N).

(** [lit] turns an ASCII literal into the text it denotes. *)
Definition lit (s : string) : str := map N_of_ascii (list_ascii_of_string s).

(** What the interpreter's Unicode tables say about a code point outside
    ASCII: whether it is a decimal digit (category Nd, what [\d] matches),
    white space ([str.isspace], what [\s] matches and [str.strip] removes),
    alphanumeric ([str.isalnum], which with the underscore makes [\w]), and
    its lower-case expansion.  [uni_lower before c after] is the expansion
    of [c] standing between [before] and [after] ([str.lower] looks at the
    neighbours of a capital sigma). *)
Class unicode_db := {
  uni_decimal : N -> bool;
  uni_space : N -> bool;
  uni_alnum : N -> bool;
  uni_lower : str -> N -> str -> str
}.

(** The table restricted to U+0080..U+00FF (no decimal digits there; NEL and
    NBSP are white space; letters, superscript digits and fractions are
    alphanumeric); code points above are left unclassified. *)
Definition latin1_alnum (c : N) : bool :=
  (c =? 170) || (c =? 178) || (c =? 179) || (c =? 181) || (c =? 185) || (c =? 186)
  || ((188 <=? c) && (c <=? 190))
  || ((192 <=? c) && (c <=? 214)) || ((216 <=? c) && (c <=? 246))
  || ((248 <=? c) && (c <=? 255)).

Definition latin1_db : unicode_db := {|
  uni_decimal := fun _ => false;
  uni_space := fun c => (c =? 133) || (c =? 160);
  uni_alnum := latin1_alnum;
  uni_lower := fun _ c _ =>
    if ((192 <=? c) && (c <=? 222) && negb (c =? 215)) then [c + 32] else [c]
|}.

(** ** The manager's state *)

(** [UserState]; [last_activity] is a clock reading in microseconds. *)
Record UserState := mkUserState {
  user_id : str;
  nickname : str;
  phone_masking_enabled : bool;
  partner_id : option str;
  partner_session_id : option str;
  last_activity : Z
}.

Definition set_partner (p sid : option str) (st : UserState) : UserState :=
  mkUserState (user_id st) (nickname st) (phone_masking_enabled st) p sid
    (last_activity st).

Definition set_last_activity (t : Z) (st : UserState) : UserState :=
  mkUserState (user_id st) (nickname st) (phone_masking_enabled st)
    (partner_id st) (partner_session_id st) t.

Definition flip_masking (st : UserState) : UserState :=
  mkUserState (user_id st) (nickname st) (negb (phone_masking_enabled st))
    (partner_id st) (partner_session_id st) (last_activity st).

(** The attributes of [RandomConnectManager].  [lock] tells whether
    [self.lock] is held. *)
Record RandomConnectManager := mkManager {
  available_users : list str;
  available_set : gset str;
  active_pairs : gmap str str;
  user_states : gmap str UserState;
  pending_notifications : gmap str (list str);
  pending_messages : gmap str (list str);
  lock : bool;
  strict_mode : bool
}.

(** [RandomConnectManager.__init__] *)
Definition init : RandomConnectManager :=
  mkManager [] ∅ ∅ ∅ ∅ ∅ false true.

Definition set_queue (q : list str) (qs : gset str) (m : RandomConnectManager)
  : RandomConnectManager :=
  mkManager q qs (active_pairs m) (user_states m) (pending_notifications m)
    (pending_messages m) (lock m) (strict_mode m).

Definition set_active_pairs (x : gmap str str) (m : RandomConnectManager)
  : RandomConnectManager :=
  mkManager (available_users m) (available_set m) x (user_states m)
    (pending_notifications m) (pending_messages m) (lock m) (strict_mode m).

Definition set_user_states (x : gmap str UserState) (m : RandomConnectManager)
  : RandomConnectManager :=
  mkManager (available_users m) (available_set m) (active_pairs m) x
    (pending_notifications m) (pending_messages m) (lock m) (strict_mode m).

Definition set_pending_notifications (x : gmap str (list str)) (m : RandomConnectManager)
  : RandomConnectManager :=
  mkManager (available_users m) (available_set m) (active_pairs m) (user_states m)
    x (pending_messages m) (lock m) (strict_mode m).

Definition set_pending_messages (x : gmap str (list str)) (m : RandomConnectManager)
  : RandomConnectManager :=
  mkManager (available_users m) (available_set m) (active_pairs m) (user_states m)
    (pending_notifications m) x (lock m) (strict_mode m).

Definition set_lock (b : bool) (m : RandomConnectManager) : RandomConnectManager :=
  mkManager (available_users m) (available_set m) (active_pairs m) (user_states m)
    (pending_notifications m) (pending_messages m) b (strict_mode m).

(** ** Methods as state transformers

    A method call either returns a value and a new state, or never returns
    ([None]): the only way that happens in this code is [with self.lock]
    entered while the lock is held, which blocks for ever since
    [threading.Lock] is not reentrant. *)
Definition M (A : Type) : Type :=
  RandomConnectManager -> option (A * RandomConnectManager).

Definition ret {A} (a : A) : M A := fun m => Some (a, m).

Definition bind {A B} (c : M A) (k : A -> M B) : M B :=
  fun m => match c m with
           | Some (a, m') => k a m'
           | None => None
           end.

Notation "'let!' x ':=' c 'in' k" := (bind c (fun x => k))
  (at level 10, x pattern, c at level 100, k at level 200).

Definition modify (f : RandomConnectManager -> RandomConnectManager) : M unit :=
  fun m => Some (tt, f m).
Definition gets {A} (f : RandomConnectManager -> A) : M A := fun m => Some (f m, m).

(** [with self.lock: body] *)
Definition with_lock {A} (body : M A) : M A :=
  fun m => if lock m then None
           else match body (set_lock true m) with
                | Some (a, m') => Some (a, set_lock false m')
                | None => None
                end.

(** Truth value of an [Optional[str]]: [None] and the empty string are false. *)
Definition truthy (o : option str) : bool :=
  match o with Some (_ :: _) => true | _ => false end.

(** What the environment hands to one [process_message] call: the readings
    of [datetime.now()] (in [get_or_create_user_state], and once more when
    [toggle_phone_masking] calls it again) and the value of [uuid.uuid4()]. *)
Record env := mkEnv { now : Z; now_toggle : Z; uuid4 : str }.

Section Model.

Context {U : unicode_db}.

(** [\d] *)
Definition is_digit (c : N) : bool :=
  if c <? 128 then (48 <=? c) && (c <=? 57) else uni_decimal c.

(** [\s], and the characters [str.strip] removes *)
Definition is_space (c : N) : bool :=
  if c <? 128 then ((9 <=? c) && (c <=? 13)) || ((28 <=? c) && (c <=? 32))
  else uni_space c.

(** [\w], which decides [\b]: alphanumeric or underscore *)
Definition is_word (c : N) : bool :=
  if c <? 128 then
    ((48 <=? c) && (c <=? 57)) || ((65 <=? c) && (c <=? 90))
    || ((97 <=? c) && (c <=? 122)) || (c =? 95)
  else uni_decimal c || uni_alnum c.

(** [str.strip()] *)
Fixpoint lstrip (s : str) : str :=
  match s with
  | c :: s' => if is_space c then lstrip s' else s
  | [] => []
  end.
Definition rstrip (s : str) : str := reverse (lstrip (reverse s)).
Definition strip (s : str) : str := rstrip (lstrip s).

(** [str.lower()] *)
Definition lower_char (before : str) (c : N) (after : str) : str :=
  if c <? 128 then [if (65 <=? c) && (c <=? 90) then c + 32 else c]
  else uni_lower before c after.

Fixpoint lower_from (before s : str) : str :=
  match s with
  | [] => []
  | c :: s' => lower_char before c s' ++ lower_from (before ++ [c]) s'
  end.

Definition lower (s : str) : str := lower_from [] s.

(** [s.startswith(p)] *)
Fixpoint startswith (s p : str) : bool :=
  match p, s with
  | [], _ => true
  | a :: p', b :: s' => (a =? b) && startswith s' p'
  | _ :: _, [] => false
  end.

(** [sep.join(parts)] *)
Fixpoint join (sep : str) (parts : list str) : str :=
  match parts with
  | [] => []
  | [p] => p
  | p :: ps => p ++ sep ++ join sep ps
  end.

(** [l[-n:]] for a positive [n] *)
Definition last_n {A} (n : nat) (l : list A) : list A := drop (length l - n) l.
Global Arguments last_n {A} n l : simpl never.

(** ** The regular expressions of [phone_patterns]

    Every pattern of the source is a sequence of quantified one-character
    classes and word-boundary assertions, so that is the syntax modelled. *)

Inductive cls := Digit | Space | Sep | Lit (c : N).

Definition in_cls (k : cls) (c : N) : bool :=
  match k with
  | Digit => is_digit c
  | Space => is_space c
  | Sep => (c =? 45) || (c =? 46) || is_space c       (* [-.\s] *)
  | Lit a => c =? a
  end.

(** [Rep k lo hi] is [k{lo,hi}] (greedy; [hi = None] for [k{lo,}]);
    [Bound] is [\b]. *)
Inductive item := Rep (k : cls) (lo : nat) (hi : option nat) | Bound.

Definition one (k : cls) : item := Rep k 1 (Some 1%nat).
Definition opt (k : cls) : item := Rep k 0 (Some 1%nat).
Definition times (k : cls) (n : nat) : item := Rep k n (Some n).
Definition at_least (k : cls) (n : nat) : item := Rep k n None.

(** Length of the longest prefix of [s] made of characters of class [k]. *)
Fixpoint span (k : cls) (s : str) : nat :=
  match s with
  | c :: s' => if in_cls k c then S (span k s') else 0%nat
  | [] => 0%nat
  end.

(** What a greedy quantifier takes first. *)
Definition greedy (k : cls) (hi : option nat) (s : str) : nat :=
  match hi with
  | Some h => Nat.min h (span k s)
  | None => span k s
  end.

(** Backtracking: try [n], [n-1], ..., [lo] repetitions, first success wins. *)
Fixpoint backtrack (try : nat -> option nat) (lo n : nat) : option nat :=
  if (n <? lo)%nat then None
  else match try n with
       | Some r => Some r
       | None => match n with
                 | O => None
                 | S n' => backtrack try lo n'
                 end
       end.

Definition head_word (s : str) : bool :=
  match s with c :: _ => is_word c | [] => false end.

(** Is the character before the current position a word character?  [pw] is
    the answer at the start of [t]; the result is the answer after [t]. *)
Definition after_word (pw : bool) (t : str) : bool :=
  match last t with Some c => is_word c | None => pw end.

(** [match_here items pw s]: the length of the match of the pattern at the
    start of [s], as the backtracking engine finds it; [pw] tells whether the
    character before [s] is a word character. *)
Fixpoint match_here (items : list item) (pw : bool) (s : str) : option nat :=
  match items with
  | [] => Some 0%nat
  | Bound :: rest =>
      if xorb pw (head_word s) then match_here rest pw s else None
  | Rep k lo hi :: rest =>
      backtrack
        (fun n => match match_here rest (after_word pw (take n s)) (drop n s) with
                  | Some r => Some (n + r)%nat
                  | None => None
                  end)
        lo (greedy k hi s)
  end.

Definition hidden : str := lit "[hidden]".

(** [re.sub(pattern, '[hidden]', s)]: scan from the left; where the pattern
    matches, write the placeholder and resume after the match ([skip] counts
    the characters of the match still to pass over); elsewhere copy the
    character.  No pattern of the source matches the empty string (each asks
    for eight digits at least, see [phone_patterns_plain] and
    [catch_all_match]), so an empty match is treated as no match. *)
Fixpoint sub_aux (items : list item) (pw : bool) (skip : nat) (s : str) : str :=
  match s with
  | [] => []
  | c :: s' =>
      match skip with
      | S k => sub_aux items (is_word c) k s'
      | O =>
          match match_here items pw s with
          | Some (S n) => hidden ++ sub_aux items (is_word c) n s'
          | _ => c :: sub_aux items (is_word c) 0 s'
          end
      end
  end.

Definition sub (items : list item) (s : str) : str := sub_aux items false 0 s.

(** [self.phone_patterns] *)
Definition phone_patterns : list (list item) :=
  [ [opt (Lit 43); Rep Digit 1 (Some 4%nat); opt Sep; at_least Digit 10];
      (* \+?\d{1,4}[-.\s]?\d{10,} *)
    [at_least Digit 10];
      (* \d{10,} *)
    [one (Lit 40); times Digit 3; one (Lit 41); opt Space; times Digit 3;
     opt (Lit 45); times Digit 4];
      (* \(\d{3}\)\s?\d{3}-?\d{4} *)
    [times Digit 3; opt Sep; times Digit 3; opt Sep; times Digit 4];
      (* \d{3}[-.\s]?\d{3}[-.\s]?\d{4} *)
    [one (Lit 43); one (Lit 57); one (Lit 49); opt Sep; times Digit 10];
      (* \+91[-.\s]?\d{10} *)
    [one (Lit 57); one (Lit 49); opt Sep; times Digit 10];
      (* 91[-.\s]?\d{10} *)
    [times Digit 5; opt Sep; times Digit 5];
      (* \d{5}[-.\s]?\d{5} *)
    [times Digit 4; opt Sep; times Digit 3; opt Sep; times Digit 3];
      (* \d{4}[-.\s]?\d{3}[-.\s]?\d{3} *)
    [times Digit 2; opt Sep; times Digit 4; opt Sep; times Digit 4]
      (* \d{2}[-.\s]?\d{4}[-.\s]?\d{4} *)
  ].

(** [\b\d{8,}\b] *)
Definition catch_all : list item := [Bound; at_least Digit 8; Bound].

Definition sub_all (ps : list (list item)) (s : str) : str :=
  fold_left (fun t p => sub p t) ps s.

(** [mask_phone_numbers] *)
Definition mask_phone_numbers (text : str) : str :=
  match text with
  | [] => text
  | _ => sub catch_all (sub_all phone_patterns text)
  end.

(** ** The methods of [RandomConnectManager] *)

(** The default nickname [f"User_{user_id[:8]}"] *)
Definition default_nickname (u : str) : str := lit "User_" ++ take 8 u.

(** [get_or_create_user_state]: the state of [u], created if there is none,
    with its last activity set to [t], the value of [datetime.now()]. *)
Definition get_or_create_user_state (u : str) (nick : option str) (t : Z)
  : M UserState :=
  with_lock (fun m =>
    let st :=
      match user_states m !! u with
      | Some st => set_last_activity t st
      | None =>
          let n := if truthy nick then default [] nick else default_nickname u in
          mkUserState u n true None None t
      end in
    Some (st, set_user_states (<[u := st]> (user_states m)) m)).

(** [_queue_add] *)
Definition _queue_add (u : str) (m : RandomConnectManager) : RandomConnectManager :=
  if decide (u ∈ available_set m) then m
  else set_queue (available_users m ++ [u]) ({[u]} ∪ available_set m) m.

(** [deque(x for x in q if x != u)] *)
Definition without (u : str) (q : list str) : list str :=
  filter (fun x => x ≠ u) q.

(** [_queue_remove] *)
Definition _queue_remove (u : str) (m : RandomConnectManager) : RandomConnectManager :=
  if decide (u ∈ available_set m) then
    let qs := available_set m ∖ {[u]} in
    match available_users m with
    | h :: q => if decide (h = u) then set_queue q qs m
                else set_queue (without u (h :: q)) qs m
    | [] => set_queue (without u []) qs m
    end
  else m.

(** The loop of [find_partner] that pops the deque until a popped user is
    still in [available_set]: the candidate found, and what is left of the
    deque and of the set. *)
Fixpoint pop_candidate (q : list str) (qs : gset str)
  : option str * list str * gset str :=
  match q with
  | [] => (None, [], qs)
  | c :: q' => if decide (c ∈ qs) then (Some c, q', qs ∖ {[c]})
               else pop_candidate q' qs
  end.

Definition connected_note (nick : str) : str :=
  [0x1F389] ++ lit " Connected! You're now chatting with " ++ nick
  ++ lit ". Use #R to send and #M to check messages.".

Definition left_note : str :=
  lit "Your partner left the chat. Use #meet to find a new one.".

(** [self.pending_notifications.setdefault(p, []).append(note)] *)
Definition push_notification (p note : str) (m : RandomConnectManager)
  : RandomConnectManager :=
  set_pending_notifications
    (<[p := default [] (pending_notifications m !! p) ++ [note]]>
       (pending_notifications m)) m.

(** The body of [find_partner] under the lock; [sid] is the value of
    [uuid.uuid4()], read only when a pair is made. *)
Definition find_partner_body (u sid : str) (m : RandomConnectManager)
  : option str * RandomConnectManager :=
  let m := _queue_remove u m in
  match available_users m with
  | [] => (None, _queue_add u m)
  | _ =>
      match pop_candidate (available_users m) (available_set m) with
      | (None, q, qs) => (None, _queue_add u (set_queue q qs m))
      | (Some p, q, qs) =>
          let m := set_queue q qs m in
          let m := set_active_pairs (<[p := u]> (<[u := p]> (active_pairs m))) m in
          let m := set_user_states
                     (alter (set_partner (Some p) (Some sid)) u (user_states m)) m in
          let m := set_user_states
                     (alter (set_partner (Some u) (Some sid)) p (user_states m)) m in
          let me_nick := match user_states m !! u with
                         | Some st => nickname st
                         | None => lit "Partner"
                         end in
          (Some p, push_notification p (connected_note me_nick) m)
      end
  end.

Definition find_partner (u sid : str) : M (option str) :=
  with_lock (fun m => Some (find_partner_body u sid m)).

(** The body of [end_chat] under the lock. *)
Definition end_chat_body (u : str) (m : RandomConnectManager)
  : option str * RandomConnectManager :=
  match active_pairs m !! u with
  | Some (c :: p') =>
      let p := c :: p' in
      let m := set_active_pairs (delete p (delete u (active_pairs m))) m in
      let m := set_user_states (alter (set_partner None None) u (user_states m)) m in
      let m := set_user_states (alter (set_partner None None) p (user_states m)) m in
      (Some p, push_notification p left_note m)
  | _ => (None, _queue_remove u m)
  end.

Definition end_chat (u : str) : M (option str) :=
  with_lock (fun m => Some (end_chat_body u m)).

(** [get_partner] *)
Definition get_partner (u : str) (m : RandomConnectManager) : option str := active_pairs m !! u.

(** [toggle_phone_masking] *)
Definition toggle_phone_masking (u : str) (t : Z) : M bool :=
  let! st := get_or_create_user_state u None t in
  let! _ := modify (fun m => set_user_states (alter flip_masking u (user_states m)) m) in
  ret (negb (phone_masking_enabled st)).

(** [get_partner_nickname] *)
Definition get_partner_nickname (u : str) (m : RandomConnectManager) : option str :=
  match get_partner u m with
  | Some (c :: p') =>
      match user_states m !! (c :: p') with
      | Some st => Some (nickname st)
      | None => None
      end
  | _ => None
  end.

(** How an f-string prints an [Optional[str]]. *)
Definition fmt (o : option str) : str :=
  match o with Some s => s | None => lit "None" end.

(** [_handle_meet_command] *)
Definition _handle_meet_command (u sid : str) : M str :=
  let! current_partner := gets (get_partner u) in
  if truthy current_partner then
    ret (lit "You're already in a chat! Use #bye to end it first, or #again to find a new partner.")
  else
    let! partner := find_partner u sid in
    if truthy partner then
      let! partner_nickname := gets (get_partner_nickname u) in
      ret ([0x1F389] ++ lit " Connected! You're now chatting with "
           ++ fmt partner_nickname ++ lit ". Say hello!")
    else
      ret ([0x1F50D]
           ++ lit " Looking for someone to chat with... Please wait while we find you a partner!").

(** [_handle_bye_command] *)
Definition _handle_bye_command (u : str) : M str :=
  let! partner := end_chat u in
  if truthy partner then
    ret ([0x1F44B] ++ lit " Chat ended. Use #meet to connect with someone new!")
  else ret (lit "You're not currently in a chat.").

(** [_handle_again_command] *)
Definition _handle_again_command (u sid : str) : M str :=
  let! _ := end_chat u in
  let! new_partner := find_partner u sid in
  if truthy new_partner then
    let! partner_nickname := gets (get_partner_nickname u) in
    ret ([0x1F504] ++ lit " New connection! You're now chatting with "
         ++ fmt partner_nickname ++ lit ". Say hello!")
  else ret ([0x1F50D] ++ lit " Looking for a new chat partner... Please wait!").

(** [_handle_hide_command] *)
Definition _handle_hide_command (u : str) (t : Z) : M str :=
  let! masking_enabled := toggle_phone_masking u t in
  ret ([0x1F512] ++ lit " Phone number masking is now "
       ++ (if masking_enabled then lit "ON" else lit "OFF") ++ lit ".").

(** [_handle_who_command] *)
Definition _handle_who_command (u : str) : M str :=
  let! partner_nickname := gets (get_partner_nickname u) in
  if truthy partner_nickname then
    ret ([0x1F464] ++ lit " You're chatting with: " ++ fmt partner_nickname)
  else ret (lit "You're not currently in a chat. Use #meet to connect!").

Definition partner_line (msg : str) : str := [0x1F4AC] ++ lit " Partner: " ++ msg.
Definition info_line (note : str) : str := [0x2139; 0xFE0F] ++ lit " " ++ note.

(** [_handle_inbox_command] *)
Definition _handle_inbox_command (u : str) : M str :=
  let! notifications := gets (fun m => default [] (pending_notifications m !! u)) in
  let! _ := modify (fun m => set_pending_notifications (delete u (pending_notifications m)) m) in
  let! messages := gets (fun m => default [] (pending_messages m !! u)) in
  let! _ := modify (fun m => set_pending_messages (delete u (pending_messages m)) m) in
  match notifications, messages with
  | [], [] => ret ([0x1F4ED] ++ lit " Inbox empty.")
  | _, _ =>
      ret (join (lit (String "010" EmptyString))
             (map info_line (last_n 3 notifications)
              ++ map partner_line (last_n 5 messages)))
  end.

Definition no_partner : str := lit "No partner found. Use #meet to connect.".

Definition sent_confirmation (nick message : str) : str :=
  [0x1F4E4] ++ lit " Message sent to your partner from " ++ nick ++ lit ": " ++ message.

(** [queue.append(x)], then [del queue[0]] when more than 100 are held. *)
Definition push_capped (queue : list str) (x : str) : list str :=
  let queue := queue ++ [x] in
  if (100 <? length queue)%nat then drop 1 queue else queue.

(** The body of [_handle_message_routing] under the lock. *)
Definition _handle_message_routing_body (u message : str) (m : RandomConnectManager)
  : str * RandomConnectManager :=
  let notifications := default [] (pending_notifications m !! u) in
  let m := set_pending_notifications (delete u (pending_notifications m)) m in
  match last notifications with
  | Some note => (note, m)
  | None =>
      match get_partner u m with
      | Some (c :: p') =>
          let p := c :: p' in
          match user_states m !! u, user_states m !! p with
          | Some me, Some partner =>
              if decide (partner_session_id me = partner_session_id partner) then
                let masked_message :=
                  if phone_masking_enabled me then mask_phone_numbers message
                  else message in
                let queue := default [] (pending_messages m !! p) in
                (sent_confirmation (nickname me) message,
                 set_pending_messages
                   (<[p := push_capped queue masked_message]> (pending_messages m)) m)
              else (no_partner, m)
          | _, _ => (no_partner, m)
          end
      | _ => (no_partner, m)
      end
  end.

Definition _handle_message_routing (u message : str) : M str :=
  with_lock (fun m => Some (_handle_message_routing_body u message m)).

Definition usage : str := lit "Usage: #R your message here".
Definition strict_tip : str :=
  lit "Use #R to send a message to your partner, and #M to check messages.".

(** [process_message] *)
Definition process_message (u message : str) (nick : option str) (e : env) : M str :=
  let! user_state := get_or_create_user_state u nick (now e) in
  let message :=
    if phone_masking_enabled user_state then mask_phone_numbers message else message in
  let message_lower := lower (strip message) in
  if startswith message_lower (lit "#meet") then _handle_meet_command u (uuid4 e)
  else if startswith message_lower (lit "#bye") then _handle_bye_command u
  else if startswith message_lower (lit "#again") then _handle_again_command u (uuid4 e)
  else if startswith message_lower (lit "#hide") then _handle_hide_command u (now_toggle e)
  else if startswith message_lower (lit "#who") then _handle_who_command u
  else if startswith message_lower (lit "#m") then _handle_inbox_command u
  else if startswith message_lower (lit "#r") then
    let content :=
      if (2 <? length (strip message))%nat then strip (drop 2 (strip message)) else [] in
    match content with
    | [] => ret usage
    | _ => _handle_message_routing u content
    end
  else
    let! strict := gets strict_mode in
    if strict then ret strict_tip
    else
      let! outbound := _handle_message_routing u message in
      let! queued := gets (fun m => default [] (pending_messages m !! u)) in
      let! _ := modify (fun m => set_pending_messages (delete u (pending_messages m)) m) in
      match queued with
      | [] => ret outbound
      | _ =>
          ret (outbound ++ lit (String "010" (String "010" EmptyString))
               ++ join (lit (String "010" EmptyString))
                    (map partner_line (last_n 10 queued)))
      end.

(** The clock of the sweep.  [current_time - user_state.last_activity] is a
    [timedelta], an exact number of microseconds.  [total_seconds()] divides
    it by [10**6]: a true division of two [int]s, whose result is the
    binary64 number nearest to the quotient, ties going to the even
    significand.  The comparison of that [float] with the [int]
    [timeout_minutes * 60] is exact. *)

(** A binary64 number, [significand * 2^exponent]. *)
Record binary64 := mkBinary64 { significand : Z; exponent : Z }.

(** The integer nearest to [a / b], ties to even, for [0 <= a] and [0 < b]. *)
Definition round_half_even (a b : Z) : Z :=
  let q := (a / b)%Z in
  let r := (a mod b)%Z in
  if (2 * r <? b)%Z then q
  else if (b <? 2 * r)%Z then (q + 1)%Z
  else if Z.even q then q else (q + 1)%Z.

(** [n / d] for two positive [int]s: the exponent is chosen so that the
    quotient scaled by it lies between [2^52] and [2^53], and the scaled
    quotient is rounded to an integer, the significand of 53 bits.  (The
    quotients of this program are numbers of seconds between two
    [datetime]s, at least [10**-6] and below [2**39]: neither overflow nor
    subnormal numbers occur.) *)
Definition true_divide (n d : Z) : binary64 :=
  let scaled e := if (0 <=? e)%Z then (n, (d * 2 ^ e)%Z) else ((n * 2 ^ (- e))%Z, d) in
  let e0 := (Z.log2 n - Z.log2 d - 52)%Z in
  let e := let '(a, b) := scaled e0 in
           if (a <? 2 ^ 52 * b)%Z then (e0 - 1)%Z else e0 in
  let '(a, b) := scaled e in
  mkBinary64 (round_half_even a b) e.

(** [timedelta.total_seconds()] of a difference of [us] microseconds *)
Definition total_seconds (us : Z) : binary64 :=
  if (us =? 0)%Z then mkBinary64 0 0
  else
    let x := true_divide (Z.abs us) 1000000 in
    mkBinary64 (Z.sgn us * significand x) (exponent x).

(** [x > n] for a [float] [x] and an [int] [n] *)
Definition float_gt_int (x : binary64) (n : Z) : bool :=
  if (0 <=? exponent x)%Z then (n <? significand x * 2 ^ exponent x)%Z
  else (n * 2 ^ (- exponent x) <? significand x)%Z.

(** The test of the sweep at time [t]:
    [time_diff.total_seconds() > (timeout_minutes * 60)] *)
Definition inactive (timeout_minutes t : Z) (st : UserState) : bool :=
  float_gt_int (total_seconds (t - last_activity st)) (timeout_minutes * 60).

(** The users [cleanup_inactive_users] collects: those whose profile passes
    the test.  (The order in which the dict yields them is not modelled:
    nothing below depends on it.) *)
Definition inactive_users (timeout_minutes t : Z) (m : RandomConnectManager) : list str :=
  (filter (fun p : str * UserState => inactive timeout_minutes t p.2 = true)
          (map_to_list (user_states m))).*1.

(** The second loop of [cleanup_inactive_users]: it calls [end_chat], the
    locked method. *)
Fixpoint sweep (us : list str) : M unit :=
  match us with
  | [] => ret tt
  | u :: us' =>
      let! _ := end_chat u in
      let! _ := modify (fun m => set_user_states (delete u (user_states m)) m) in
      sweep us'
  end.

(** [cleanup_inactive_users] *)
Definition cleanup_inactive_users (timeout_minutes t : Z) : M unit :=
  with_lock (fun m => sweep (inactive_users timeout_minutes t m) m).

(** A relay of several messages in a row by the same sender, nothing else
    happening in between. *)
Fixpoint relay_all (u : str) (msgs : list str) : M unit :=
  match msgs with
  | [] => ret tt
  | x :: rest => let! _ := _handle_message_routing u x in relay_all u rest
  end.

(** The masking preference [process_message] finds for [u]: the stored one,
    or the default of a profile created on the spot. *)
Definition masking_of (u : str) (m : RandomConnectManager) : bool :=
  match user_states m !! u with
  | Some st => phone_masking_enabled st
  | None => true
  end.

(** The text [process_message] dispatches on: the message, redacted up front
    when the sender's masking is on. *)
Definition received (u message : str) (m : RandomConnectManager) : str :=
  if masking_of u m then mask_phone_numbers message else message.

(** The content of an explicit relay command [#r ...], if [text] is one and
    has content. *)
Definition relay_content (text : str) : option str :=
  if startswith (lower (strip text)) (lit "#r") then
    match (if (2 <? length (strip text))%nat
           then strip (drop 2 (strip text)) else []) with
    | [] => None
    | c :: content => Some (c :: content)
    end
  else None.

(** The profile [get_or_create_user_state] returns and stores. *)
Definition touched (u : str) (nick : option str) (t : Z) (m : RandomConnectManager)
  : UserState :=
  match user_states m !! u with
  | Some st => set_last_activity t st
  | None =>
      mkUserState u (if truthy nick then default [] nick else default_nickname u)
        true None None t
  end.

(** ** Runs of the manager *)

(** One call from outside: a message of a user with a non-empty identifier,
    a sweep, or one of the two session methods called directly:
    [end_chat] for any user, [find_partner] for a user with a non-empty
    identifier who has no partner (the precondition its two callers
    establish). *)
Inductive step : RandomConnectManager -> RandomConnectManager -> Prop :=
| step_message u message nick e m r m' :
    u <> [] -> process_message u message nick e m = Some (r, m') -> step m m'
| step_find_partner u sid m r m' :
    u <> [] -> get_partner u m = None ->
    find_partner u sid m = Some (r, m') -> step m m'
| step_end_chat u m r m' :
    end_chat u m = Some (r, m') -> step m m'
| step_cleanup timeout t m m' :
    cleanup_inactive_users timeout t m = Some (tt, m') -> step m m'.

Definition reachable (m : RandomConnectManager) : Prop := rtc step init m.

(** A user is waiting, is paired. *)
Definition waiting (u : str) (m : RandomConnectManager) : Prop :=
  u ∈ available_users m \/ u ∈ available_set m.
Definition paired (u : str) (m : RandomConnectManager) : Prop := is_Some (active_pairs m !! u).

(** No user is both waiting and paired. *)
Definition exclusive (m : RandomConnectManager) : Prop := forall u, ~ (waiting u m /\ paired u m).

(** What holds between calls: the lock is free, the deque and the set hold
    the same users, once each, none of them paired, and no identifier in the
    queue or in the pair map is empty. *)
Definition Inv (m : RandomConnectManager) : Prop :=
  lock m = false /\
  NoDup (available_users m) /\
  (forall u, u ∈ available_set m <-> u ∈ available_users m) /\
  (forall u, u ∈ available_set m -> active_pairs m !! u = None) /\
  (forall u, u ∈ available_set m -> u <> []) /\
  (forall u p, active_pairs m !! u = Some p -> u <> [] /\ p <> []).

(** A body that neither reads nor writes the lock. *)
Definition lock_oblivious {A} (f : RandomConnectManager -> A * RandomConnectManager)
  : Prop :=
  forall b m, f (set_lock b m) = ((f m).1, set_lock b (f m).2).


(** The text put in the recipient's queue. *)
Definition redacted (me : UserState) (content : str) : str :=
  if phone_masking_enabled me then mask_phone_numbers content else content.

(** The manager once [get_or_create_user_state] has run for [u]. *)
Definition touch (u : str) (nick : option str) (t : Z) (m : RandomConnectManager)
  : RandomConnectManager :=
  set_user_states (<[u := touched u nick t m]> (user_states m)) m.

(** The calls the server makes on the manager: the messages of users, here
    with a non-empty identifier, and the sweeps. *)
Inductive serve : RandomConnectManager -> RandomConnectManager -> Prop :=
| serve_message u message nick e m r m' :
    u <> [] -> process_message u message nick e m = Some (r, m') -> serve m m'
| serve_cleanup timeout t m m' :
    cleanup_inactive_users timeout t m = Some (tt, m') -> serve m m'.

Definition served (m : RandomConnectManager) : Prop := rtc serve init m.

(** The pair map is symmetric. *)
Definition symmetric (m : RandomConnectManager) : Prop :=
  forall a b, active_pairs m !! a = Some b -> active_pairs m !! b = Some a.

(** The two users of a pair have a profile each, with the same epoch. *)
Definition epochs_agree (m : RandomConnectManager) : Prop :=
  forall a b, active_pairs m !! a = Some b ->
    exists sa sb, user_states m !! a = Some sa /\ user_states m !! b = Some sb /\
                  partner_session_id sa = partner_session_id sb.

(** Who waits has a profile. *)
Definition known (m : RandomConnectManager) : Prop :=
  forall u, u ∈ available_set m -> is_Some (user_states m !! u).

(** No message queue holds more than 100 messages. *)
Definition capped (m : RandomConnectManager) : Prop :=
  forall p q, pending_messages m !! p = Some q -> (length q <= 100)%nat.

Definition Sessions (m : RandomConnectManager) : Prop :=
  Inv m /\ symmetric m /\ known m /\ epochs_agree m /\ capped m.

(** Every profile of [m] is still there in [m'], with its epoch. *)
Definition keeps_epochs (m m' : RandomConnectManager) : Prop :=
  forall x sx, user_states m !! x = Some sx ->
    exists sx', user_states m' !! x = Some sx' /\
                partner_session_id sx' = partner_session_id sx.

(** One round of the sweep as it would run if it did not have to take the
    lock again: the body of [end_chat], then the removal of the profile. *)
Definition sweep_round (u : str) (m : RandomConnectManager) : RandomConnectManager :=
  let m := (end_chat_body u m).2 in
  set_user_states (delete u (user_states m)) m.

(** ** Vocabulary of the redaction properties *)

(** The characters a pattern can consume. *)
Definition item_accepts (it : item) (c : N) : bool :=
  match it with Rep k _ _ => in_cls k c | Bound => false end.

Definition in_alphabet (items : list item) (c : N) : bool :=
  existsb (fun it => item_accepts it c) items.

(** The least number of characters a match has. *)
Fixpoint min_len (items : list item) : nat :=
  match items with
  | [] => 0
  | Rep _ lo _ :: rest => lo + min_len rest
  | Bound :: rest => min_len rest
  end.

Definition boundary_free (items : list item) : bool :=
  forallb (fun it => match it with Bound => false | Rep _ _ _ => true end) items.

(** A pattern without [\b] that matches no empty string and none of the
    characters of the placeholder. *)
Definition plain (items : list item) : bool :=
  boundary_free items && (0 <? min_len items)%nat
  && forallb (fun c => negb (in_alphabet items c)) hidden.

(** The pattern matches nowhere in [t]; [pw] tells whether a word character
    stands before [t]. *)
Fixpoint nomatch (items : list item) (pw : bool) (t : str) : Prop :=
  match_here items pw t = None /\
  match t with
  | [] => True
  | c :: t' => nomatch items (is_word c) t'
  end.

(** [quiet Q R pw skip s]: while [re.sub] scans [s] for [R], the pattern [Q]
    matches at none of the positions whose character is copied. *)
Fixpoint quiet (Q R : list item) (pw : bool) (skip : nat) (s : str) : Prop :=
  match s with
  | [] => True
  | c :: s' =>
      match skip with
      | S k => quiet Q R (is_word c) k s'
      | O =>
          match match_here R pw s with
          | Some (S n) => quiet Q R (is_word c) n s'
          | _ => match_here Q false s = None /\ quiet Q R (is_word c) 0 s'
          end
      end
  end.

(** [sim A s t]: [t] is [s] up to a character outside [A], from where on
    the two are unrelated. *)
Inductive sim (A : N -> bool) : str -> str -> Prop :=
| sim_nil : sim A [] []
| sim_cons c s t : sim A s t -> sim A (c :: s) (c :: t)
| sim_stop c s t : A c = false -> sim A s (c :: t).

(** The same for the catch-all pattern: the two texts part only where no
    word character stands before. *)
Inductive sim_bound : bool -> str -> str -> Prop :=
| sim_bound_nil pw : sim_bound pw [] []
| sim_bound_cons pw c s t : sim_bound (is_word c) s t -> sim_bound pw (c :: s) (c :: t)
| sim_bound_stop s t : sim_bound false s t.

(** How the output context [opw] of a scan for the catch-all pattern stands
    to the scan: equal to the context of the input, or just behind a
    placeholder, where the input has no digit. *)
Definition ctx_ok (pw : bool) (skip : nat) (opw : bool) (s : str) : Prop :=
  match skip with
  | O => opw = pw \/ (opw = false /\ span Digit s = 0%nat)
  | S _ => opw = false /\ head_word (drop skip s) = false
  end.

(** Does [s] hold [n] digits in a row? *)
Fixpoint has_digit_run (n : nat) (s : str) : bool :=
  (n <=? span Digit s)%nat
  || match s with
     | [] => false
     | _ :: s' => has_digit_run n s'
     end.

(** ** More of the code: the rest of [random_connect.py], and the pure
    parts of [random_connect_server.py] *)

(** [is_command] *)
Definition is_command (message : str) : bool :=
  let message := lower (strip message) in
  existsb (fun cmd => startswith message cmd)
    [lit "#meet"; lit "#bye"; lit "#again"; lit "#hide"; lit "#who"; lit "#m"; lit "#r"].

(** The dict [get_system_stats] returns, one field per key. *)
Record SystemStats := mkStats {
  stat_active_users : nat;
  stat_waiting_users : nat;
  stat_active_pairs : nat;
  stat_total_connections : nat
}.

(** [get_system_stats] *)
Definition get_system_stats : M SystemStats :=
  with_lock (fun m =>
    Some (mkStats (size (user_states m)) (length (available_users m))
            (size (active_pairs m) / 2) (size (active_pairs m) / 2), m)).

(** [str(n)] for an [int] *)
Definition show_int (n : Z) : str := lit (NilZero.string_of_int (Z.to_int n)).

Definition newline : str := [10].

(** The text the [cleanup_inactive] tool of the server returns. *)
Definition cleanup_report (timeout_minutes cleaned_users remaining pairs : Z) : str :=
  [0x1F9F9] ++ lit " **Cleanup Complete**" ++ newline
  ++ newline
  ++ [0x23F0] ++ lit " **Timeout**: " ++ show_int timeout_minutes ++ lit " minutes" ++ newline
  ++ [0x1F5D1; 0xFE0F] ++ lit " **Users Cleaned**: " ++ show_int cleaned_users ++ newline
  ++ [0x1F465] ++ lit " **Remaining Active Users**: " ++ show_int remaining ++ newline
  ++ [0x1F4AC] ++ lit " **Active Chat Pairs**: " ++ show_int pairs ++ newline
  ++ newline
  ++ lit "**System Status**: " ++ [0x2705] ++ lit " Cleanup Successful".

(** [cleanup_inactive] of the server; [t] is the clock reading of the sweep. *)
Definition cleanup_inactive (timeout_minutes t : Z) : M str :=
  let! initial_stats := get_system_stats in
  let! _ := cleanup_inactive_users timeout_minutes t in
  let! final_stats := get_system_stats in
  let cleaned_users :=
    (Z.of_nat (stat_active_users initial_stats)
     - Z.of_nat (stat_active_users final_stats))%Z in
  ret (cleanup_report timeout_minutes cleaned_users
         (Z.of_nat (stat_active_users final_stats))
         (Z.of_nat (stat_active_pairs final_stats))).

(** [AccessToken], with the fields the server fills. *)
Record AccessToken := mkAccessToken {
  token : str;
  client_id : str;
  scopes : list str;
  expires_at : option Z
}.

(** [SimpleBearerAuthProvider.load_access_token]; [self_token] is the token
    the provider was built with. *)
Definition load_access_token (self_token : option str) (tok : str) : option AccessToken :=
  if truthy (Some tok) && bool_decide (strip tok = strip (default [] self_token))
  then Some (mkAccessToken tok (lit "puch-random-connect") [lit "*"] None)
  else None.

(** ** Vocabulary of the further properties *)

(** The invariant with the bound on the waiting queue. *)
Definition Waits (m : RandomConnectManager) : Prop :=
  Inv m /\ (length (available_users m) <= 1)%nat.

(** Nobody is paired with themselves. *)
Definition no_self_pairs (m : RandomConnectManager) : Prop :=
  forall a, active_pairs m !! a <> Some a.

(** Every profile is filed under its own identifier, has a nickname, and
    names the partner the pair map names, with an epoch exactly when
    there is one. *)
Definition mirrored (m : RandomConnectManager) : Prop :=
  forall u st, user_states m !! u = Some st ->
    user_id st = u /\ nickname st <> [] /\ partner_id st = active_pairs m !! u /\
    (partner_session_id st = None <-> active_pairs m !! u = None).

Definition Profiles (m : RandomConnectManager) : Prop :=
  Sessions m /\ strict_mode m = true /\ no_self_pairs m /\ mirrored m.

Definition masking_reply (on : bool) : str :=
  [0x1F512] ++ lit " Phone number masking is now "
  ++ (if on then lit "ON" else lit "OFF") ++ lit ".".
Definition inbox_empty : str := [0x1F4ED] ++ lit " Inbox empty.".

(** The profile of [v] is there, with this nickname and this identifier. *)
Definition named (v nick uid : str) (m : RandomConnectManager) : Prop :=
  exists st, user_states m !! v = Some st /\ nickname st = nick /\ user_id st = uid.

(** The number of decimal digits in a text. *)
Fixpoint count_digits (s : str) : nat :=
  match s with
  | [] => 0
  | c :: s' => (if is_digit c then 1 else 0) + count_digits s'
  end.

(** The least number of characters of class [\d] a match has. *)
Fixpoint min_digits (items : list item) : nat :=
  match items with
  | [] => 0
  | Rep Digit lo _ :: rest => lo + min_digits rest
  | _ :: rest => min_digits rest
  end.
Definition chat_ended : str :=
  [0x1F44B] ++ lit " Chat ended. Use #meet to connect with someone new!".

End Model.

(** * Concrete runs *)

Definition alice : str := lit "alice".
Definition bob : str := lit "bob".
Definition carol : str := lit "carol".
Definition meet : str := lit "#meet".

(** The environment of the [n]-th call of a run: the clock shows [n], and
    [uuid4] returns a value of its own. *)
Definition env_at (n : nat) : env :=
  mkEnv (Z.of_nat n) (Z.of_nat n) (lit "epoch-" ++ [48 + N.of_nat n]).

(** A run of [process_message] calls, nicknames left out. *)
Fixpoint run_from (n : nat) (calls : list (str * str)) (m : RandomConnectManager)
  : option RandomConnectManager :=
  match calls with
  | [] => Some m
  | (u, message) :: rest =>
      match process_message (U := latin1_db) u message None (env_at n) m with
      | Some (_, m') => run_from (S n) rest m'
      | None => None
      end
  end.

Definition run (calls : list (str * str)) : option RandomConnectManager := run_from 1 calls init.

(** Alice asks for a match and waits; Bob asks and is paired with her. *)
Definition alice_waiting : RandomConnectManager :=
  Eval vm_compute in default init (run [(alice, meet)]).
Definition alice_and_bob : RandomConnectManager :=
  Eval vm_compute in default init (run [(alice, meet); (bob, meet)]).

Definition alice_state : UserState :=
  mkUserState alice (lit "User_alice") true (Some bob) (Some (lit "epoch-2")) 1.
Definition bob_state : UserState :=
  mkUserState bob (lit "User_bob") true (Some alice) (Some (lit "epoch-2")) 2.

(** Three users waiting at once, in this order. *)
Definition three_waiting : RandomConnectManager :=
  mkManager [alice; bob; carol] {[alice; bob; carol]} ∅ ∅ ∅ ∅ false true.

(** 101 messages, all different. *)
Definition hundred_and_one : list str :=
  map (fun i => lit "message " ++ [65 + N.of_nat i]) (seq 0 101).

(** A user whose identifier is the empty string asks for a match, Bob asks
    twice, Carol once. *)
Definition after_empty_id : RandomConnectManager :=
  Eval vm_compute in
    default init (run [([], meet); (bob, meet); (bob, meet); (carol, meet)]).

(** [find_partner] called for Bob while Alice waits. *)
Definition paired_directly : RandomConnectManager :=
  Eval vm_compute in
    match find_partner bob (lit "epoch-2") alice_waiting with
    | Some (_, m) => m
    | None => init
    end.

(** Alice, paired with Bob, sends a plain message under another nickname. *)
Definition after_rename : RandomConnectManager :=
  Eval vm_compute in
    match process_message (U := latin1_db) alice (lit "hello") (Some (lit "Alicia"))
            (env_at 3) alice_and_bob with
    | Some (_, m) => m
    | None => init
    end.

Section Properties.

Context {U : unicode_db}.

(** * Properties *)

(** ** The lock *)

Lemma set_lock_same m : set_lock (lock m) m = m.
Proof. by destruct m. Qed.

Lemma set_lock_twice a b m : set_lock a (set_lock b m) = set_lock a m.
Proof. by destruct m. Qed.

Lemma lock_oblivious_lock {A} (f : RandomConnectManager -> A * RandomConnectManager) m :
  lock_oblivious f -> lock (f m).2 = lock m.
Proof.
  intros Hf. specialize (Hf (lock m) m). rewrite set_lock_same in Hf.
  rewrite Hf at 1. by destruct (f m).2.
Qed.

Lemma with_lock_free {A} (f : RandomConnectManager -> A * RandomConnectManager) m :
  lock_oblivious f -> lock m = false ->
  with_lock (fun m => Some (f m)) m = Some (f m).
Proof.
  intros Hf Hm. unfold with_lock. rewrite Hm, (Hf true m). cbn.
  rewrite set_lock_twice.
  rewrite <- (lock_oblivious_lock f m Hf) in Hm. rewrite <- Hm, set_lock_same.
  by destruct (f m).
Qed.

Lemma with_lock_held {A} (body : M A) m : lock m = true -> with_lock body m = None.
Proof. intros H. unfold with_lock. by rewrite H. Qed.

Lemma queue_remove_set_lock u b m :
  _queue_remove u (set_lock b m) = set_lock b (_queue_remove u m).
Proof.
  destruct m as [q qs ap us pn pm l sm]. unfold _queue_remove. cbn.
  destruct (decide (u ∈ qs)); [|done]. destruct q as [|h q]; [done|].
  by destruct (decide (h = u)).
Qed.

Lemma queue_add_set_lock u b m :
  _queue_add u (set_lock b m) = set_lock b (_queue_add u m).
Proof.
  destruct m as [q qs ap us pn pm l sm]. unfold _queue_add. cbn.
  by destruct (decide (u ∈ qs)).
Qed.

Lemma find_partner_oblivious u sid : lock_oblivious (find_partner_body u sid).
Proof.
  intros b m. unfold find_partner_body. rewrite queue_remove_set_lock.
  destruct (_queue_remove u m) as [q qs ap us pn pm l sm].
  cbn [set_lock available_users available_set active_pairs user_states
       pending_notifications pending_messages lock strict_mode].
  destruct q as [|h q].
  { cbn [fst snd]. f_equal.
    apply (queue_add_set_lock u b (mkManager [] qs ap us pn pm l sm)). }
  destruct (pop_candidate (h :: q) qs) as [[[p|] q'] qs'].
  - done.
  - cbn [fst snd]. f_equal.
    apply (queue_add_set_lock u b (mkManager q' qs' ap us pn pm l sm)).
Qed.

Lemma end_chat_oblivious u : lock_oblivious (end_chat_body u).
Proof.
  intros b m. unfold end_chat_body.
  replace (active_pairs (set_lock b m)) with (active_pairs m) by by destruct m.
  destruct (active_pairs m !! u) as [[|c p]|]; cbn [fst snd].
  - by rewrite queue_remove_set_lock.
  - by destruct m.
  - by rewrite queue_remove_set_lock.
Qed.

Lemma routing_oblivious u message : lock_oblivious (_handle_message_routing_body u message).
Proof.
  intros b [q qs ap us pn pm l sm].
  unfold _handle_message_routing_body, get_partner. cbn.
  destruct (last _); [done|]. destruct (ap !! u) as [[|c p]|]; [done| |done].
  destruct (us !! u); [|done]. destruct (us !! (c :: p)); [|done].
  by destruct (decide _).
Qed.

Lemma find_partner_eq u sid m :
  lock m = false -> find_partner u sid m = Some (find_partner_body u sid m).
Proof. apply with_lock_free, find_partner_oblivious. Qed.

Lemma end_chat_eq u m : lock m = false -> end_chat u m = Some (end_chat_body u m).
Proof. apply with_lock_free, end_chat_oblivious. Qed.

Lemma routing_eq u message m :
  lock m = false ->
  _handle_message_routing u message m = Some (_handle_message_routing_body u message m).
Proof. apply with_lock_free, routing_oblivious. Qed.

(** ** Notifications come first (C4, C10) *)

Lemma routing_body_note u message m notes note :
  pending_notifications m !! u = Some notes -> last notes = Some note ->
  _handle_message_routing_body u message m
  = (note, set_pending_notifications (delete u (pending_notifications m)) m).
Proof.
  intros Hn Hl. unfold _handle_message_routing_body. rewrite Hn. cbn. by rewrite Hl.
Qed.

Lemma last_nonempty {A} (l : list A) : l <> [] -> exists x, last l = Some x.
Proof.
  intros H. destruct (last l) eqn:E; [eauto|]. by apply last_None in E.
Qed.

(** C4.  A relay request of a user whose notification queue is not empty is
    answered with the (latest) notification; the call relays nothing: the
    message queues are what they were. *)
Theorem relay_yields_to_notification m u message notes :
  lock m = false ->
  pending_notifications m !! u = Some notes -> notes <> [] ->
  exists note m',
    last notes = Some note /\
    _handle_message_routing u message m = Some (note, m') /\
    pending_messages m' = pending_messages m /\
    pending_notifications m' !! u = None.
Proof.
  intros Hl Hn Hne. destruct (last_nonempty notes Hne) as [note Hlast].
  exists note. eexists. split; [done|].
  rewrite routing_eq by done. rewrite (routing_body_note _ _ _ _ _ Hn Hlast).
  split; [reflexivity|]. split; [done|]. cbn. apply lookup_delete_eq.
Qed.

Lemma find_partner_body_lock u sid m : lock (find_partner_body u sid m).2 = lock m.
Proof. apply lock_oblivious_lock, find_partner_oblivious. Qed.

(** What [find_partner] does when it makes a pair. *)
Lemma find_partner_body_paired u sid m p m1 :
  find_partner_body u sid m = (Some p, m1) ->
  exists nick,
    pending_notifications m1 !! p
    = Some (default [] (pending_notifications (_queue_remove u m) !! p)
            ++ [connected_note nick]) /\
    active_pairs m1 = <[p := u]> (<[u := p]> (active_pairs m)) /\
    pending_messages m1 = pending_messages m.
Proof.
  unfold find_partner_body.
  assert (Hap : active_pairs (_queue_remove u m) = active_pairs m).
  { unfold _queue_remove. repeat case_match; done. }
  assert (Hpm : pending_messages (_queue_remove u m) = pending_messages m).
  { unfold _queue_remove. repeat case_match; done. }
  destruct (available_users (_queue_remove u m)) as [|h q] eqn:Eq; [done|].
  destruct (pop_candidate (h :: q) (available_set (_queue_remove u m)))
    as [[[c|] q'] qs'] eqn:Ep; [|done].
  intros [= -> <-]. eexists. cbn. rewrite lookup_insert_eq, Hap, Hpm. done.
Qed.

(** C10.  When [find_partner] makes a pair, the partner taken from the
    waiting queue gets a "Connected!" notification appended to its
    notification queue, and a relay request that partner makes next returns
    that notification and relays nothing. *)
Theorem pairing_notifies_partner m u sid p m1 :
  lock m = false ->
  find_partner u sid m = Some (Some p, m1) ->
  exists nick older,
    pending_notifications m1 !! p = Some (older ++ [connected_note nick]) /\
    forall message, exists m2,
      _handle_message_routing p message m1 = Some (connected_note nick, m2) /\
      pending_messages m2 = pending_messages m1.
Proof.
  intros Hl Hf. rewrite find_partner_eq in Hf by done.
  assert (Hl1 : lock m1 = false).
  { rewrite <- Hl, <- (find_partner_body_lock u sid m).
    injection Hf as Hf. by rewrite Hf. }
  injection Hf as Hf.
  destruct (find_partner_body_paired _ _ _ _ _ Hf) as (nick & Hn & _ & _).
  exists nick. eexists. split; [exact Hn|].
  intros message. eexists.
  rewrite routing_eq by done.
  rewrite (routing_body_note p message m1 _ (connected_note nick) Hn)
    by apply last_snoc.
  split; [reflexivity | done].
Qed.

(** ** Dispatch *)

Lemma get_or_create_eq u nick t m :
  lock m = false ->
  get_or_create_user_state u nick t m
  = Some (touched u nick t m,
          set_user_states (<[u := touched u nick t m]> (user_states m)) m).
Proof.
  intros Hl. unfold get_or_create_user_state.
  rewrite (with_lock_free
    (fun m => (touched u nick t m,
               set_user_states (<[u := touched u nick t m]> (user_states m)) m)));
    [done| |done].
  by intros b [].
Qed.

Lemma touched_masking u nick t m :
  phone_masking_enabled (touched u nick t m) = masking_of u m.
Proof. unfold touched, masking_of. by destruct (user_states m !! u). Qed.

Lemma startswith_relay_only (x : str) :
  startswith x (lit "#r") = true ->
  startswith x (lit "#meet") = false /\ startswith x (lit "#bye") = false /\
  startswith x (lit "#again") = false /\ startswith x (lit "#hide") = false /\
  startswith x (lit "#who") = false /\ startswith x (lit "#m") = false.
Proof.
  destruct x as [|a [|b x]]; cbn; try done.
  - by rewrite andb_false_r.
  - intros H. apply andb_true_iff in H as [Ha H].
    apply andb_true_iff in H as [Hb _].
    apply N.eqb_eq in Ha, Hb. subst a b. done.
Qed.

(** An explicit relay command is handed to [_handle_message_routing] with
    its content, whatever the mode. *)
Lemma process_message_relay u message nick e m content :
  lock m = false ->
  relay_content (received u message m) = Some content ->
  process_message u message nick e m
  = _handle_message_routing u content
      (set_user_states (<[u := touched u nick (now e) m]> (user_states m)) m).
Proof.
  intros Hl Hc. unfold process_message, bind.
  rewrite get_or_create_eq by done. rewrite touched_masking.
  unfold relay_content, received in Hc.
  destruct (startswith _ (lit "#r")) eqn:Hr; [|done].
  destruct (startswith_relay_only _ Hr) as (-> & -> & -> & -> & -> & ->).
  destruct (if (2 <? length _)%nat then _ else _) as [|c cs]; [done|].
  by injection Hc as <-.
Qed.

(** The priority of notifications seen from [process_message]: an explicit
    relay command of a user with pending notifications returns the latest
    of them and relays nothing. *)
Lemma relay_command_yields_to_notification m u message nick e notes content :
  lock m = false ->
  pending_notifications m !! u = Some notes -> notes <> [] ->
  relay_content (received u message m) = Some content ->
  exists note m',
    last notes = Some note /\
    process_message u message nick e m = Some (note, m') /\
    pending_messages m' = pending_messages m.
Proof.
  intros Hl Hn Hne Hc. destruct (last_nonempty notes Hne) as [note Hlast].
  exists note. eexists. split; [done|].
  rewrite (process_message_relay u message nick e m content) by done.
  rewrite routing_eq by done.
  rewrite (routing_body_note _ _ _ notes note) by done.
  split; [reflexivity|done].
Qed.

(** An explicit relay command without content is answered with the usage
    line right after [get_or_create_user_state]. *)
Lemma process_message_usage u message nick e m :
  lock m = false ->
  strip (received u message m) = lit "#r" \/ strip (received u message m) = lit "#R" ->
  process_message u message nick e m
  = Some (usage,
          set_user_states (<[u := touched u nick (now e) m]> (user_states m)) m).
Proof.
  intros Hl Hc. unfold process_message, bind.
  rewrite get_or_create_eq by done. rewrite touched_masking.
  unfold received in Hc.
  destruct Hc as [-> | ->]; reflexivity.
Qed.

(** ** Relay (C3, C7) *)

Lemma routing_body_relay u content m p me partner :
  last (default [] (pending_notifications m !! u)) = None ->
  active_pairs m !! u = Some p -> p <> [] ->
  user_states m !! u = Some me -> user_states m !! p = Some partner ->
  partner_session_id me = partner_session_id partner ->
  _handle_message_routing_body u content m
  = (sent_confirmation (nickname me) content,
     set_pending_messages
       (<[p := push_capped (default [] (pending_messages m !! p)) (redacted me content)]>
          (pending_messages m))
       (set_pending_notifications (delete u (pending_notifications m)) m)).
Proof.
  intros Hn Hp Hne Hme Hpa Hs. unfold _handle_message_routing_body, get_partner.
  rewrite Hn. cbn. rewrite Hp. destruct p as [|c p']; [done|].
  rewrite Hme, Hpa. by rewrite decide_True.
Qed.

Lemma last_n_le {A} n (l : list A) : (length l <= n)%nat -> last_n n l = l.
Proof. intros H. unfold last_n. by replace (length l - n)%nat with 0%nat by lia. Qed.

Lemma last_n_length {A} n (l : list A) : (length (last_n n l) <= n)%nat.
Proof. unfold last_n. rewrite length_drop. lia. Qed.

Lemma last_n_app {A} n (l k : list A) : last_n n (last_n n l ++ k) = last_n n (l ++ k).
Proof.
  destruct (decide (length l <= n)%nat) as [H|H].
  - by rewrite (last_n_le n l).
  - unfold last_n. rewrite !length_app, length_drop.
    replace (length l - (length l - n) + length k - n)%nat with (length k) by lia.
    replace (length l + length k - n)%nat with ((length l - n) + length k)%nat by lia.
    rewrite <- drop_drop. by rewrite (drop_app_le l) by lia.
Qed.

Lemma push_capped_last_n (q : list str) x :
  (length q <= 100)%nat -> push_capped q x = last_n 100 (q ++ [x]).
Proof.
  intros H. unfold push_capped, last_n. rewrite length_app. cbn [length].
  destruct (100 <? length q + 1)%nat eqn:E.
  - apply Nat.ltb_lt in E. by replace (length q + 1 - 100)%nat with 1%nat by lia.
  - apply Nat.ltb_ge in E. by replace (length q + 1 - 100)%nat with 0%nat by lia.
Qed.

(** The queue of the recipient after a run of relays: the latest 100 of what
    it held and what was sent, in order. *)
Lemma relay_all_queue msgs : forall m u p me partner,
  lock m = false ->
  last (default [] (pending_notifications m !! u)) = None ->
  active_pairs m !! u = Some p -> p <> [] ->
  user_states m !! u = Some me -> user_states m !! p = Some partner ->
  partner_session_id me = partner_session_id partner ->
  (length (default [] (pending_messages m !! p)) <= 100)%nat ->
  exists m',
    relay_all u msgs m = Some (tt, m') /\
    default [] (pending_messages m' !! p)
    = last_n 100 (default [] (pending_messages m !! p) ++ map (redacted me) msgs).
Proof.
  induction msgs as [|x msgs IH]; intros m u p me partner Hl Hn Hp Hne Hme Hpa Hs Hq.
  - exists m. split; [done|]. by rewrite app_nil_r, last_n_le.
  - cbn [relay_all]. unfold bind. rewrite routing_eq by done.
    rewrite (routing_body_relay u x m p me partner) by done.
    set (m1 := set_pending_messages _ _).
    destruct (IH m1 u p me partner) as (m' & Hr & Hq'); try done.
    + subst m1. cbn. by rewrite lookup_delete_eq.
    + subst m1. cbn. rewrite lookup_insert_eq. cbn.
      rewrite push_capped_last_n by done. apply last_n_length.
    + exists m'. split; [done|]. rewrite Hq'. subst m1. cbn.
      rewrite lookup_insert_eq. cbn. rewrite push_capped_last_n by done.
      rewrite last_n_app. by rewrite <- app_assoc.
Qed.

(** C7.  101 relays in a row to one recipient, whose queue respected the cap
    before, leave in the queue the last 100 of them in the order sent: the
    first one is gone. *)
Theorem queue_keeps_latest_100 m u p me partner msgs :
  lock m = false ->
  pending_notifications m !! u = None ->
  active_pairs m !! u = Some p -> p <> [] ->
  user_states m !! u = Some me -> user_states m !! p = Some partner ->
  partner_session_id me = partner_session_id partner ->
  (length (default [] (pending_messages m !! p)) <= 100)%nat ->
  length msgs = 101%nat ->
  exists m',
    relay_all u msgs m = Some (tt, m') /\
    pending_messages m' !! p = Some (drop 1 (map (redacted me) msgs)).
Proof.
  intros Hl Hn Hp Hne Hme Hpa Hs Hq Hlen.
  destruct (relay_all_queue msgs m u p me partner) as (m' & Hr & Hq'); try done.
  { by rewrite Hn. }
  exists m'. split; [done|].
  assert (Hd : last_n 100 (default [] (pending_messages m !! p) ++ map (redacted me) msgs)
               = drop 1 (map (redacted me) msgs)).
  { unfold last_n. rewrite length_app, length_map, Hlen.
    replace (length (default [] (pending_messages m !! p)) + 101 - 100)%nat
      with (length (default [] (pending_messages m !! p)) + 1)%nat by lia.
    by rewrite drop_app_add. }
  rewrite Hd in Hq'.
  destruct (pending_messages m' !! p) as [q|] eqn:E; cbn in Hq'; [by subst|].
  destruct msgs as [|a [|b msgs]]; cbn in Hlen; try lia. done.
Qed.

(** C3 (as the code has it).  A relay command of a paired sender whose epoch
    agrees with the partner's puts the content, redacted per the sender's
    masking preference, at the end of the partner's queue, and the
    confirmation echoes the content as [process_message] passed it on: the
    content of the message after the up-front redaction when the sender's
    masking is on, the content as submitted when it is off. *)
Theorem relay_confirmation_echo m u message nick e p me partner content :
  lock m = false ->
  pending_notifications m !! u = None ->
  active_pairs m !! u = Some p -> p <> [] ->
  user_states m !! u = Some me -> user_states m !! p = Some partner ->
  partner_session_id me = partner_session_id partner ->
  relay_content (if phone_masking_enabled me then mask_phone_numbers message else message)
  = Some content ->
  exists m',
    process_message u message nick e m
    = Some (sent_confirmation (nickname me) content, m') /\
    pending_messages m' !! p
    = Some (push_capped (default [] (pending_messages m !! p)) (redacted me content)).
Proof.
  intros Hl Hn Hp Hne Hme Hpa Hs Hc.
  assert (Hrec : received u message m
                 = if phone_masking_enabled me then mask_phone_numbers message else message).
  { unfold received, masking_of. by rewrite Hme. }
  rewrite (process_message_relay u message nick e m content) by (by rewrite ?Hrec).
  set (me' := touched u nick (now e) m).
  assert (Hme' : me' = set_last_activity (now e) me).
  { subst me'. unfold touched. by rewrite Hme. }
  set (m1 := set_user_states _ m).
  assert (exists partner', user_states m1 !! p = Some partner' /\
            partner_session_id partner' = partner_session_id partner) as (partner' & Hpa' & Hs').
  { subst m1. cbn. destruct (decide (u = p)) as [->|Hup].
    - rewrite lookup_insert_eq. exists me'. split; [done|].
      rewrite Hme'. cbn. congruence.
    - rewrite lookup_insert_ne by done. eauto. }
  rewrite routing_eq by done.
  rewrite (routing_body_relay u content m1 p me' partner'); try done.
  - rewrite Hme'. eexists. split; [done|]. cbn. by rewrite lookup_insert_eq.
  - subst m1. cbn. by rewrite Hn.
  - subst m1. cbn. by rewrite lookup_insert_eq.
  - rewrite Hs', Hme'. cbn. done.
Qed.

(** ** First come, first matched (C8) *)

Lemma pop_candidate_skip (stale : list str) (a : str) (rest : list str) (qs : gset str) :
  Forall (fun x => x ∉ qs) stale -> a ∈ qs ->
  pop_candidate (stale ++ a :: rest) qs = (Some a, rest, qs ∖ {[a]}).
Proof.
  intros Hs Ha. induction Hs as [|x stale Hx _ IH]; cbn.
  - by rewrite decide_True.
  - by rewrite decide_False.
Qed.

Lemma pop_candidate_none (q : list str) (qs : gset str) :
  Forall (fun x => x ∉ qs) q -> pop_candidate q qs = (None, [], qs).
Proof.
  intros Hs. induction Hs as [|x q Hx _ IH]; cbn; [done|]. by rewrite decide_False.
Qed.

Lemma queue_remove_set d m :
  available_set (_queue_remove d m) = available_set m ∖ {[d]}.
Proof.
  unfold _queue_remove. destruct (decide (d ∈ available_set m)); [|set_solver].
  destruct (available_users m); [done|]. by destruct (decide _).
Qed.

(** The waiting queue once the caller is out of it still has the first live
    entry behind stale ones only. *)
Lemma queue_remove_first_live d m (stale : list str) (a : str) (rest : list str) :
  available_users m = stale ++ a :: rest ->
  Forall (fun x => x ∉ available_set m \/ x = d) stale ->
  a ∈ available_set m -> a <> d ->
  exists stale' rest',
    available_users (_queue_remove d m) = stale' ++ a :: rest' /\
    Forall (fun x => x ∉ available_set (_queue_remove d m)) stale'.
Proof.
  intros Hq Hs Ha Had.
  assert (Hs' : Forall (fun x => x ∉ available_set m ∖ {[d]}) stale).
  { eapply Forall_impl; [exact Hs|]. intros x [?| ->]; set_solver. }
  pose proof (queue_remove_set d m) as Hset.
  unfold _queue_remove in *. destruct (decide (d ∈ available_set m)) as [Hd|Hd].
  - rewrite Hq. destruct stale as [|h stale]; cbn [app].
    + rewrite decide_False by done. cbn [available_users available_set set_queue].
      exists [], (without d rest). split; [|done].
      unfold without. by rewrite filter_cons_True by done.
    + destruct (decide (h = d)) as [->|Hh];
        cbn [available_users available_set set_queue].
      * exists stale, rest. split; [done|]. by inversion Hs'.
      * exists (without d (h :: stale)), (without d rest). split.
        { unfold without. rewrite (app_comm_cons stale), filter_app.
          by rewrite (filter_cons_True _ a) by done. }
        apply Forall_forall. intros x Hx. unfold without in Hx.
        apply list_elem_of_filter in Hx as [_ Hx].
        rewrite Forall_forall in Hs'. by apply Hs'.
  - exists stale, rest. split; [done|]. eapply Forall_impl; [exact Hs'|].
    intros x. cbn. set_solver.
Qed.

(** C8.  [find_partner] pairs the caller with the first entry of the waiting
    queue, in the order of arrival, that is still live; stale entries in
    front of it are passed over.  With the queue [A; B; C], all live, a new
    user is paired with [A]. *)
Theorem find_partner_fifo m d sid (stale : list str) (a : str) (rest : list str) :
  lock m = false ->
  available_users m = stale ++ a :: rest ->
  Forall (fun x => x ∉ available_set m \/ x = d) stale ->
  a ∈ available_set m -> a <> d ->
  exists m',
    find_partner d sid m = Some (Some a, m') /\
    active_pairs m' !! d = Some a /\ active_pairs m' !! a = Some d /\
    (a ∉ available_set m') /\ (d ∉ available_set m').
Proof.
  intros Hl Hq Hs Ha Had. rewrite find_partner_eq by done.
  destruct (queue_remove_first_live d m stale a rest) as (stale' & rest' & Hq' & Hs');
    try done.
  pose proof (queue_remove_set d m) as Hset.
  assert (Hap : active_pairs (_queue_remove d m) = active_pairs m).
  { unfold _queue_remove. destruct (decide _); [|done].
    destruct (available_users m); [done|]. by destruct (decide _). }
  unfold find_partner_body.
  rewrite Hq'. rewrite (pop_candidate_skip stale' a rest') by first [done | set_solver].
  destruct (stale' ++ a :: rest') eqn:E; [by destruct stale'|].
  eexists. split; [reflexivity|]. cbn.
  rewrite lookup_insert_ne, !lookup_insert_eq by done.
  repeat split; try done; set_solver.
Qed.

(** When the queue holds no live entry the caller joins it and waits. *)
Lemma find_partner_exhausted m d sid :
  lock m = false -> d ∉ available_set m ->
  Forall (fun x => x ∉ available_set m) (available_users m) ->
  exists m', find_partner d sid m = Some (None, m') /\
             available_users m' = [d] /\ d ∈ available_set m'.
Proof.
  intros Hl Hd Hs. rewrite find_partner_eq by done.
  unfold find_partner_body, _queue_remove. rewrite decide_False by done.
  destruct (available_users m) as [|h q] eqn:E.
  - unfold _queue_add. rewrite decide_False by done.
    eexists. split; [reflexivity|]. cbn. rewrite E. split; [done|set_solver].
  - rewrite (pop_candidate_none _ _ Hs). unfold _queue_add. cbn.
    rewrite decide_False by done. eexists. split; [reflexivity|]. cbn.
    split; [done|set_solver].
Qed.

(** ** The relay command without content (C9) *)

(** C9 (as the code has it).  An explicit relay command without content is
    answered with the usage line; the waiting queue, the pairs and both
    mailboxes are left as they were, and so is every profile but the
    sender's, which is created if there was none and whose last activity is
    set to the time of the call, nothing else of it changing. *)
Theorem empty_relay_usage m u message nick e :
  lock m = false ->
  strip (received u message m) = lit "#r" \/ strip (received u message m) = lit "#R" ->
  exists m' st',
    process_message u message nick e m = Some (usage, m') /\
    available_users m' = available_users m /\
    available_set m' = available_set m /\
    active_pairs m' = active_pairs m /\
    pending_notifications m' = pending_notifications m /\
    pending_messages m' = pending_messages m /\
    (forall v, v <> u -> user_states m' !! v = user_states m !! v) /\
    user_states m' !! u = Some st' /\
    last_activity st' = now e /\
    (forall st, user_states m !! u = Some st -> st' = set_last_activity (now e) st).
Proof.
  intros Hl Hc. rewrite process_message_usage by done.
  eexists. exists (touched u nick (now e) m). split; [reflexivity|]. cbn.
  repeat split; try done.
  - intros v Hv. by rewrite lookup_insert_ne.
  - by rewrite lookup_insert_eq.
  - unfold touched. by destruct (user_states m !! u).
  - intros st Hst. unfold touched. by rewrite Hst.
Qed.

(** ** Waiting or paired, never both (C1) *)

Lemma Inv_init : Inv init.
Proof.
  repeat split; cbn; try done; try set_solver. apply NoDup_nil_2.
Qed.

Lemma Inv_exclusive m : Inv m -> exclusive m.
Proof.
  intros (_ & _ & Hq & Hx & _) u [Hw [p Hp]].
  assert (u ∈ available_set m) as Hu by (destruct Hw; [by apply Hq|done]).
  apply Hx in Hu. congruence.
Qed.

(** The invariant looks at the lock, the queue and the pair map only. *)
Lemma Inv_core m m' :
  Inv m -> lock m' = lock m -> available_users m' = available_users m ->
  available_set m' = available_set m -> active_pairs m' = active_pairs m -> Inv m'.
Proof. unfold Inv. intros H -> -> -> ->. exact H. Qed.

Lemma without_notin d (q : list str) : d ∉ q -> without d q = q.
Proof.
  unfold without. induction q as [|x q IH]; intros Hd; [done|].
  apply not_elem_of_cons in Hd as [Hx Hd].
  rewrite filter_cons_True by done. by rewrite IH.
Qed.

Lemma queue_remove_users d m :
  NoDup (available_users m) ->
  (forall u, u ∈ available_set m <-> u ∈ available_users m) ->
  available_users (_queue_remove d m) = without d (available_users m).
Proof.
  intros Hnd Hq. unfold _queue_remove.
  destruct (decide (d ∈ available_set m)) as [Hd|Hd].
  - destruct (available_users m) as [|h q] eqn:E; [done|].
    destruct (decide (h = d)) as [->|Hh]; [|done]. cbn [available_users set_queue].
    apply NoDup_cons in Hnd as [Hnd _].
    unfold without at 1. rewrite filter_cons_False by naive_solver.
    symmetry. by apply without_notin.
  - symmetry. apply without_notin. intros Hx. by apply Hd, Hq.
Qed.

Lemma queue_remove_frame d m :
  lock (_queue_remove d m) = lock m /\
  active_pairs (_queue_remove d m) = active_pairs m.
Proof.
  unfold _queue_remove. destruct (decide _); [|done].
  destruct (available_users m); [done|]. by destruct (decide _).
Qed.

Lemma Inv_queue_remove d m : Inv m -> Inv (_queue_remove d m).
Proof.
  intros (Hl & Hnd & Hq & Hx & Hne & Hp).
  destruct (queue_remove_frame d m) as [Hl' Hap].
  pose proof (queue_remove_users d m Hnd Hq) as Hus.
  pose proof (queue_remove_set d m) as Hset.
  unfold Inv. rewrite Hl', Hap, Hus, Hset. split_and!; try done.
  - by apply NoDup_filter.
  - intros u. unfold without. rewrite list_elem_of_filter, <- Hq. set_solver.
  - intros u Hu. apply Hx. set_solver.
  - intros u Hu. apply Hne. set_solver.
Qed.

Lemma Inv_queue_add d m :
  Inv m -> d <> [] -> active_pairs m !! d = None -> Inv (_queue_add d m).
Proof.
  intros HI Hd Hp. unfold _queue_add. destruct (decide _) as [Hin|Hin]; [done|].
  destruct HI as (Hl & Hnd & Hq & Hx & Hne & Hpp).
  unfold Inv. cbn. split_and!; try done.
  - apply NoDup_app. split; [done|]. split; [|apply NoDup_singleton].
    intros x Hx1 Hx2. apply list_elem_of_singleton in Hx2 as ->. by apply Hin, Hq.
  - intros u. rewrite elem_of_app, <- Hq. set_solver.
  - intros u Hu. apply elem_of_union in Hu as [Hu|Hu]; [|by apply Hx].
    apply elem_of_singleton in Hu as ->. done.
  - intros u Hu. apply elem_of_union in Hu as [Hu|Hu]; [|by apply Hne].
    apply elem_of_singleton in Hu as ->. done.
Qed.

Lemma Inv_find_partner_body u sid m :
  Inv m -> u <> [] -> active_pairs m !! u = None ->
  Inv (find_partner_body u sid m).2.
Proof.
  intros HI Hu Hp. unfold find_partner_body.
  pose proof (Inv_queue_remove u m HI) as HI0.
  pose proof (queue_remove_set u m) as Hset.
  destruct (queue_remove_frame u m) as [_ Hap].
  set (m0 := _queue_remove u m) in *. rewrite <- Hap in Hp.
  destruct (available_users m0) as [|h q] eqn:Eq.
  { by apply Inv_queue_add. }
  destruct HI0 as (Hl & Hnd & Hq & Hx & Hne & Hpp).
  assert (Hh : h ∈ available_set m0) by (apply Hq; rewrite Eq; set_solver).
  cbn [pop_candidate]. rewrite decide_True by done. cbn.
  rewrite Eq in Hnd, Hq. apply NoDup_cons in Hnd as [Hhq Hnd].
  assert (Hhu : h <> u) by (intros ->; set_solver).
  unfold Inv. cbn. split_and!; try done.
  - intros x. rewrite elem_of_difference, Hq. set_solver.
  - intros x Hx'. apply elem_of_difference in Hx' as [Hx1 Hx2].
    rewrite !lookup_insert_ne by set_solver. by apply Hx.
  - intros x Hx'. apply Hne. set_solver.
  - intros x p Hxp. destruct (decide (x = h)) as [->|Hxh].
    + rewrite lookup_insert_eq in Hxp. injection Hxp as <-. split; [by apply Hne|done].
    + rewrite lookup_insert_ne in Hxp by done. destruct (decide (x = u)) as [->|Hxu].
      * rewrite lookup_insert_eq in Hxp. injection Hxp as <-. split; [done|by apply Hne].
      * rewrite lookup_insert_ne in Hxp by done. by eapply Hpp.
Qed.

Lemma Inv_end_chat_body u m :
  Inv m -> Inv (end_chat_body u m).2 /\ active_pairs (end_chat_body u m).2 !! u = None.
Proof.
  intros HI. unfold end_chat_body.
  destruct (active_pairs m !! u) as [[|c p']|] eqn:Hp.
  - destruct HI as (_ & _ & _ & _ & _ & Hpp). by destruct (Hpp _ _ Hp).
  - destruct HI as (Hl & Hnd & Hq & Hx & Hne & Hpp). cbn. split.
    + unfold Inv. cbn. split_and!; try done.
      * intros x Hx'. apply lookup_delete_None. right.
        apply lookup_delete_None. right. by apply Hx.
      * intros x p Hxp. apply lookup_delete_Some in Hxp as [_ Hxp].
        apply lookup_delete_Some in Hxp as [_ Hxp]. by eapply Hpp.
    + apply lookup_delete_None. right. apply lookup_delete_None. by left.
  - cbn. split; [by apply Inv_queue_remove|].
    destruct (queue_remove_frame u m) as [_ ->]. done.
Qed.

Lemma untruthy_partner u m :
  Inv m -> truthy (get_partner u m) = false -> active_pairs m !! u = None.
Proof.
  intros (_ & _ & _ & _ & _ & Hpp). unfold get_partner.
  destruct (active_pairs m !! u) as [[|c p]|] eqn:Hp; [|done..].
  by destruct (Hpp _ _ Hp).
Qed.

Lemma Inv_routing_body u message m :
  Inv m -> Inv (_handle_message_routing_body u message m).2.
Proof.
  intros HI. unfold _handle_message_routing_body, get_partner.
  repeat case_match; (eapply Inv_core; [exact HI|done..]).
Qed.

Lemma Inv_lock m : Inv m -> lock m = false.
Proof. by intros (? & _). Qed.

(** *** Serving one message

    What a property [P] of the manager needs in order to hold after
    [process_message] has served user [u], given that [P0] held before:
    the steps the handlers are made of keep it. *)
Section Serving.

Variable u : str.
Variables P0 P : RandomConnectManager -> Prop.

Hypothesis P0_lock : forall m, P0 m -> lock m = false.
Hypothesis P_P0 : forall m, P m -> P0 m.
Hypothesis P_touch : forall nick t m, P0 m -> P (touch u nick t m).
Hypothesis P_unpaired :
  forall m, P m -> truthy (get_partner u m) = false -> active_pairs m !! u = None.
Hypothesis P_find :
  forall sid m, P m -> active_pairs m !! u = None -> P (find_partner_body u sid m).2.
Hypothesis P_end :
  forall m, P m ->
    P (end_chat_body u m).2 /\ active_pairs (end_chat_body u m).2 !! u = None.
Hypothesis P_routing :
  forall message m, P m -> P (_handle_message_routing_body u message m).2.
Hypothesis P_flip :
  forall m, P m -> P (set_user_states (alter flip_masking u (user_states m)) m).
Hypothesis P_notes :
  forall m, P m ->
    P (set_pending_notifications (delete u (pending_notifications m)) m).
Hypothesis P_messages :
  forall m, P m -> P (set_pending_messages (delete u (pending_messages m)) m).

Lemma serving_lock m : P m -> lock m = false.
Proof. intros H. by apply P0_lock, P_P0. Qed.

Lemma serving_meet sid m r m' :
  P m -> _handle_meet_command u sid m = Some (r, m') -> P m'.
Proof.
  intros HP. unfold _handle_meet_command, bind, gets, ret.
  destruct (truthy (get_partner u m)) eqn:E; [by intros [= _ <-]|].
  rewrite find_partner_eq by by apply serving_lock.
  pose proof (P_find sid m HP (P_unpaired m HP E)) as HP1.
  destruct (find_partner_body u sid m) as [r1 m1].
  by destruct (truthy r1); intros [= _ <-].
Qed.

Lemma serving_bye m r m' : P m -> _handle_bye_command u m = Some (r, m') -> P m'.
Proof.
  intros HP. unfold _handle_bye_command, bind, ret.
  rewrite end_chat_eq by by apply serving_lock.
  destruct (P_end m HP) as [HP1 _].
  destruct (end_chat_body u m) as [r1 m1].
  by destruct (truthy r1); intros [= _ <-].
Qed.

Lemma serving_again sid m r m' :
  P m -> _handle_again_command u sid m = Some (r, m') -> P m'.
Proof.
  intros HP. unfold _handle_again_command, bind, gets, ret.
  rewrite end_chat_eq by by apply serving_lock.
  destruct (P_end m HP) as [HP1 Hp1].
  destruct (end_chat_body u m) as [r1 m1]. cbn in HP1, Hp1.
  rewrite find_partner_eq by by apply serving_lock.
  pose proof (P_find sid m1 HP1 Hp1) as HP2.
  destruct (find_partner_body u sid m1) as [r2 m2].
  by destruct (truthy r2); intros [= _ <-].
Qed.

Lemma serving_hide t m r m' : P m -> _handle_hide_command u t m = Some (r, m') -> P m'.
Proof.
  intros HP. unfold _handle_hide_command, toggle_phone_masking, bind, modify, ret.
  rewrite get_or_create_eq by by apply serving_lock.
  intros [= _ <-]. apply (P_flip (touch u None t m)). by apply P_touch, P_P0.
Qed.

Lemma serving_who m r m' : P m -> _handle_who_command u m = Some (r, m') -> P m'.
Proof.
  intros HP. unfold _handle_who_command, bind, gets, ret.
  by destruct (truthy _); intros [= _ <-].
Qed.

Lemma serving_inbox m r m' : P m -> _handle_inbox_command u m = Some (r, m') -> P m'.
Proof.
  intros HP. unfold _handle_inbox_command, bind, gets, modify, ret.
  pose proof (P_messages _ (P_notes m HP)) as HP'.
  destruct (default [] (pending_notifications m !! u));
    destruct (default [] (pending_messages _ !! u)); by intros [= _ <-].
Qed.

Lemma serving_routing message m r m' :
  P m -> _handle_message_routing u message m = Some (r, m') -> P m'.
Proof.
  intros HP. rewrite routing_eq by by apply serving_lock.
  pose proof (P_routing message m HP).
  destruct (_handle_message_routing_body u message m). by intros [= _ <-].
Qed.

Lemma serving_process_message message nick e m r m' :
  P0 m -> process_message u message nick e m = Some (r, m') -> P m'.
Proof.
  intros HP0. unfold process_message. unfold bind at 1.
  rewrite get_or_create_eq by by apply P0_lock.
  pose proof (P_touch nick (now e) m HP0) as HP. unfold touch in HP.
  set (m1 := set_user_states _ m) in *. clearbody m1.
  destruct (startswith _ (lit "#meet")); [intros H; by eapply serving_meet|].
  destruct (startswith _ (lit "#bye")); [intros H; by eapply serving_bye|].
  destruct (startswith _ (lit "#again")); [intros H; by eapply serving_again|].
  destruct (startswith _ (lit "#hide")); [intros H; by eapply serving_hide|].
  destruct (startswith _ (lit "#who")); [intros H; by eapply serving_who|].
  destruct (startswith _ (lit "#m")); [intros H; by eapply serving_inbox|].
  destruct (startswith _ (lit "#r")).
  - destruct (if (2 <? _)%nat then _ else _); [by intros [= _ <-]|].
    by apply serving_routing.
  - unfold bind, gets, modify, ret. destruct (strict_mode m1); [by intros [= _ <-]|].
    destruct (_handle_message_routing u _ m1) as [[r2 m2]|] eqn:E; [|done].
    apply serving_routing in E; [|done]. pose proof (P_messages m2 E).
    by destruct (default [] _); intros [= _ <-].
Qed.

End Serving.

Lemma Inv_process_message u message nick e m r m' :
  Inv m -> u <> [] -> process_message u message nick e m = Some (r, m') -> Inv m'.
Proof.
  intros HI Hu. revert HI. apply (serving_process_message u Inv Inv).
  - apply Inv_lock.
  - done.
  - intros ? ? m0 H. by eapply Inv_core.
  - intros m0. apply untruthy_partner.
  - intros sid m0 H. by apply Inv_find_partner_body.
  - intros m0. apply Inv_end_chat_body.
  - intros msg m0. apply Inv_routing_body.
  - intros m0 H. by eapply Inv_core.
  - intros m0 H. by eapply Inv_core.
  - intros m0 H. by eapply Inv_core.
Qed.

(** The sweep calls [end_chat] while [cleanup_inactive_users] holds the
    lock: with anyone to evict it never returns. *)
Lemma sweep_held u us m : lock m = true -> sweep (u :: us) m = None.
Proof. intros H. cbn. unfold bind, end_chat. by rewrite with_lock_held. Qed.

Lemma cleanup_returns timeout t m r m' :
  cleanup_inactive_users timeout t m = Some (r, m') ->
  inactive_users timeout t m = [] /\ m' = m.
Proof.
  unfold cleanup_inactive_users, with_lock.
  destruct (lock m) eqn:Hl; [done|].
  replace (inactive_users timeout t (set_lock true m))
    with (inactive_users timeout t m) by by destruct m.
  destruct (inactive_users timeout t m) as [|u us].
  - cbn. intros [= _ <-]. split; [done|].
    rewrite set_lock_twice, <- Hl. apply set_lock_same.
  - by rewrite sweep_held by by destruct m.
Qed.

(** A round of the sweep that did not have to take the lock again would
    keep the invariant as well. *)
Lemma Inv_sweep_round u m : Inv m -> Inv (sweep_round u m).
Proof.
  intros HI. destruct (Inv_end_chat_body u m HI) as [HI' _].
  unfold sweep_round. by eapply Inv_core.
Qed.

Lemma Inv_step m m' : Inv m -> step m m' -> Inv m'.
Proof.
  intros HI Hs.
  destruct Hs as [u message nick e m r m' Hu H | u sid m r m' Hu Hp H
                 | u m r m' H | timeout t m m' H].
  - eapply Inv_process_message; [exact HI | exact Hu | exact H].
  - rewrite find_partner_eq in H by by apply Inv_lock.
    injection H as H. pose proof (Inv_find_partner_body u sid m HI Hu Hp) as HI'.
    rewrite H in HI'. done.
  - rewrite end_chat_eq in H by by apply Inv_lock.
    injection H as H. destruct (Inv_end_chat_body u m HI) as [HI' _].
    rewrite H in HI'. done.
  - by apply cleanup_returns in H as [_ ->].
Qed.

Lemma reachable_Inv m : reachable m -> Inv m.
Proof.
  unfold reachable. intros H.
  eapply (rtc_ind_r (fun m => Inv m) init); [apply Inv_init| |exact H].
  intros y z _ Hyz HI. by eapply Inv_step.
Qed.

(** C1 (as the code has it).  In every state reached from the empty manager
    by messages of users with non-empty identifiers, sweeps, [end_chat]
    calls and [find_partner] calls for users with a non-empty identifier
    and without a partner, no user is both in the waiting queue (deque or
    set) and in the pair map. *)
Theorem waiting_or_paired m : reachable m -> exclusive m.
Proof. intros H. by apply Inv_exclusive, reachable_Inv. Qed.


(** ** Pairs of users with non-empty identifiers (the setting of C2) *)

Lemma queue_remove_others d m :
  user_states (_queue_remove d m) = user_states m /\
  pending_notifications (_queue_remove d m) = pending_notifications m /\
  pending_messages (_queue_remove d m) = pending_messages m.
Proof.
  unfold _queue_remove. destruct (decide _); [|done].
  destruct (available_users m); [done|]. by destruct (decide _).
Qed.

Lemma queue_add_frame d m :
  active_pairs (_queue_add d m) = active_pairs m /\
  user_states (_queue_add d m) = user_states m /\
  pending_messages (_queue_add d m) = pending_messages m /\
  available_set (_queue_add d m) = {[d]} ∪ available_set m.
Proof.
  unfold _queue_add. destruct (decide _); [|done]. split_and!; try done. set_solver.
Qed.

(** The two ways [find_partner] ends. *)
Lemma find_partner_body_cases u sid m :
  Inv m ->
  let m0 := _queue_remove u m in
  find_partner_body u sid m = (None, _queue_add u m0) \/
  exists h q note,
    h ∈ available_set m /\ h <> u /\
    find_partner_body u sid m
    = (Some h,
       push_notification h note
         (set_user_states
            (alter (set_partner (Some u) (Some sid)) h
               (alter (set_partner (Some h) (Some sid)) u (user_states m)))
            (set_active_pairs (<[h := u]> (<[u := h]> (active_pairs m)))
               (set_queue q (available_set m0 ∖ {[h]}) m0)))).
Proof.
  intros HI m0. unfold find_partner_body. fold m0.
  pose proof (Inv_queue_remove u m HI) as (_ & _ & Hq & _).
  pose proof (queue_remove_set u m) as Hset.
  destruct (queue_remove_frame u m) as [_ Hap].
  destruct (queue_remove_others u m) as (Hus & _ & _). fold m0 in Hq, Hset, Hap, Hus.
  destruct (available_users m0) as [|h q] eqn:Eq; [by left|]. right.
  assert (Hh : h ∈ available_set m0) by (apply Hq; set_solver).
  cbn [pop_candidate]. rewrite decide_True by done.
  exists h, q. eexists. split_and!; [set_solver|set_solver|].
  cbn [user_states set_queue set_active_pairs set_user_states active_pairs].
  rewrite Hus, Hap. reflexivity.
Qed.

(** The two ways [end_chat] ends. *)
Lemma end_chat_body_cases u m :
  Inv m ->
  (active_pairs m !! u = None /\ end_chat_body u m = (None, _queue_remove u m)) \/
  exists p,
    active_pairs m !! u = Some p /\
    end_chat_body u m
    = (Some p,
       push_notification p left_note
         (set_user_states
            (alter (set_partner None None) p
               (alter (set_partner None None) u (user_states m)))
            (set_active_pairs (delete p (delete u (active_pairs m))) m))).
Proof.
  intros (_ & _ & _ & _ & _ & Hpp). unfold end_chat_body.
  destruct (active_pairs m !! u) as [[|c p]|] eqn:Hp.
  - by destruct (Hpp _ _ Hp).
  - right. by exists (c :: p).
  - by left.
Qed.

Lemma Sessions_Inv m : Sessions m -> Inv m.
Proof. by intros [? _]. Qed.

Lemma Sessions_init : Sessions init.
Proof.
  split; [apply Inv_init|]. split_and!.
  - intros a b H. cbn in H. by rewrite lookup_empty in H.
  - intros u H. cbn in H. set_solver.
  - intros a b H. cbn in H. by rewrite lookup_empty in H.
  - intros p q H. cbn in H. by rewrite lookup_empty in H.
Qed.

(** A step that leaves the queue and the pairs alone and keeps profiles
    and epochs. *)
Lemma Sessions_frame m m' :
  Sessions m -> Inv m' ->
  active_pairs m' = active_pairs m -> available_set m' = available_set m ->
  keeps_epochs m m' -> capped m' -> Sessions m'.
Proof.
  intros (_ & Hsym & Hkn & Hep & _) HI Hap Hset Hke Hcap.
  split; [done|]. unfold symmetric, known, epochs_agree. rewrite Hap, Hset.
  split_and!; [done| | |done].
  - intros x Hx. destruct (Hkn x Hx) as [sx Hsx].
    destruct (Hke x sx Hsx) as (sx' & -> & _). by eexists.
  - intros a b Hab. destruct (Hep a b Hab) as (sa & sb & Ha & Hb & Hs).
    destruct (Hke a sa Ha) as (sa' & Ha' & Hsa).
    destruct (Hke b sb Hb) as (sb' & Hb' & Hsb).
    exists sa', sb'. split_and!; [done|done|congruence].
Qed.

Lemma keeps_epochs_refl m m' : user_states m' = user_states m -> keeps_epochs m m'.
Proof. intros H x sx Hx. exists sx. by rewrite H. Qed.

Lemma keeps_epochs_alter f u m m' :
  (forall st, partner_session_id (f st) = partner_session_id st) ->
  user_states m' = alter f u (user_states m) -> keeps_epochs m m'.
Proof.
  intros Hf H x sx Hx. rewrite H. destruct (decide (u = x)) as [->|Hne].
  - exists (f sx). by rewrite lookup_alter_eq, Hx.
  - exists sx. by rewrite lookup_alter_ne.
Qed.

Lemma Sessions_touch u nick t m :
  Sessions m -> Sessions (touch u nick t m) /\ is_Some (user_states (touch u nick t m) !! u).
Proof.
  intros HS. split; [|cbn; rewrite lookup_insert_eq; by eexists].
  eapply Sessions_frame; [exact HS| |done|done| |by destruct HS as (_&_&_&_&?)].
  - eapply Inv_core; [by apply Sessions_Inv|done..].
  - intros x sx Hx. cbn. destruct (decide (u = x)) as [->|Hne].
    + rewrite lookup_insert_eq. eexists. split; [done|].
      unfold touched. by rewrite Hx.
    + rewrite lookup_insert_ne by done. by exists sx.
Qed.

Lemma Sessions_find u sid m :
  Sessions m -> u <> [] -> active_pairs m !! u = None -> is_Some (user_states m !! u) ->
  Sessions (find_partner_body u sid m).2 /\
  is_Some (user_states (find_partner_body u sid m).2 !! u).
Proof.
  intros (HI & Hsym & Hkn & Hep & Hcap) Hu Hpu Hsu.
  pose proof (Inv_find_partner_body u sid m HI Hu Hpu) as HI'.
  destruct (queue_remove_frame u m) as [_ Hap].
  destruct (queue_remove_others u m) as (Hus & _ & Hpm).
  pose proof (queue_remove_set u m) as Hset.
  destruct (find_partner_body_cases u sid m HI) as [E|(h & q & note & Hh & Hhu & E)];
    rewrite E in *; cbn [snd] in *.
  - destruct (queue_add_frame u (_queue_remove u m)) as (Hap' & Hus' & Hpm' & Hset').
    split; [|by rewrite Hus', Hus].
    split; [done|]. unfold symmetric, known, epochs_agree, capped.
    rewrite Hap', Hus', Hpm', Hset', Hap, Hus, Hpm, Hset. split_and!; try done.
    intros x Hx. apply elem_of_union in Hx as [Hx|Hx]; [|apply Hkn; set_solver].
    by apply elem_of_singleton in Hx as ->.
  - assert (Hph : active_pairs m !! h = None).
    { destruct HI as (_ & _ & _ & Hx & _). by apply Hx. }
    destruct (Hkn h Hh) as [sh Hsh]. destruct Hsu as [su Hsu].
    assert (Hother : forall x, x <> u -> x <> h ->
              user_states
                (push_notification h note
                   (set_user_states
                      (alter (set_partner (Some u) (Some sid)) h
                         (alter (set_partner (Some h) (Some sid)) u (user_states m)))
                      (set_active_pairs (<[h := u]> (<[u := h]> (active_pairs m)))
                         (set_queue q (available_set (_queue_remove u m) ∖ {[h]})
                            (_queue_remove u m))))) !! x
              = user_states m !! x).
    { intros x Hxu Hxh. cbn. by rewrite !lookup_alter_ne. }
    split; [|cbn; rewrite lookup_alter_ne, lookup_alter_eq, Hsu by done; by eexists].
    split; [done|]. split_and!.
    + intros a b. cbn. intros Hab. destruct (decide (a = h)) as [->|Hah].
      * rewrite lookup_insert_eq in Hab. injection Hab as <-.
        by rewrite lookup_insert_ne, lookup_insert_eq.
      * rewrite lookup_insert_ne in Hab by done. destruct (decide (a = u)) as [->|Hau].
        { rewrite lookup_insert_eq in Hab. injection Hab as <-.
          by rewrite lookup_insert_eq. }
        rewrite lookup_insert_ne in Hab by done. apply Hsym in Hab as Hba.
        rewrite !lookup_insert_ne by congruence. done.
    + intros x. cbn. intros Hx. rewrite Hset in Hx.
      destruct (Hkn x) as [sx Hsx]; [set_solver|].
      apply lookup_alter_is_Some, lookup_alter_is_Some. by eexists.
    + intros a b Hab. cbn in Hab.
      assert (Hu' : exists su', user_states
                (push_notification h note
                   (set_user_states
                      (alter (set_partner (Some u) (Some sid)) h
                         (alter (set_partner (Some h) (Some sid)) u (user_states m)))
                      (set_active_pairs (<[h := u]> (<[u := h]> (active_pairs m)))
                         (set_queue q (available_set (_queue_remove u m) ∖ {[h]})
                            (_queue_remove u m))))) !! u = Some su' /\
                partner_session_id su' = Some sid).
      { cbn. rewrite lookup_alter_ne, lookup_alter_eq, Hsu by done. by eexists. }
      assert (Hh' : exists sh', user_states
                (push_notification h note
                   (set_user_states
                      (alter (set_partner (Some u) (Some sid)) h
                         (alter (set_partner (Some h) (Some sid)) u (user_states m)))
                      (set_active_pairs (<[h := u]> (<[u := h]> (active_pairs m)))
                         (set_queue q (available_set (_queue_remove u m) ∖ {[h]})
                            (_queue_remove u m))))) !! h = Some sh' /\
                partner_session_id sh' = Some sid).
      { cbn. rewrite lookup_alter_eq, lookup_alter_ne, Hsh by done. by eexists. }
      destruct Hu' as (su' & Hsu' & Heu). destruct Hh' as (sh' & Hsh' & Heh).
      destruct (decide (a = h)) as [->|Hah].
      * rewrite lookup_insert_eq in Hab. injection Hab as <-.
        exists sh', su'. split_and!; [done|done|congruence].
      * rewrite lookup_insert_ne in Hab by done. destruct (decide (a = u)) as [->|Hau].
        { rewrite lookup_insert_eq in Hab. injection Hab as <-.
          exists su', sh'. split_and!; [done|done|congruence]. }
        rewrite lookup_insert_ne in Hab by done. apply Hsym in Hab as Hba.
        destruct (Hep a b Hab) as (sa & sb & Ha & Hb & Hs).
        exists sa, sb. rewrite !Hother by congruence. done.
    + intros p l. cbn. rewrite Hpm. apply Hcap.
Qed.

Lemma Sessions_end u m :
  Sessions m -> is_Some (user_states m !! u) ->
  Sessions (end_chat_body u m).2 /\ is_Some (user_states (end_chat_body u m).2 !! u).
Proof.
  intros (HI & Hsym & Hkn & Hep & Hcap) Hsu.
  destruct (Inv_end_chat_body u m HI) as [HI' _].
  destruct (end_chat_body_cases u m HI) as [[Hpu E]|(p & Hpu & E)];
    rewrite E in *; cbn [snd] in *.
  - destruct (queue_remove_frame u m) as [_ Hap].
    destruct (queue_remove_others u m) as (Hus & _ & Hpm).
    pose proof (queue_remove_set u m) as Hset.
    split; [|by rewrite Hus]. split; [done|].
    unfold symmetric, known, epochs_agree, capped. rewrite Hap, Hus, Hpm, Hset.
    split_and!; try done. intros x Hx. apply Hkn. set_solver.
  - split; [|cbn; by apply lookup_alter_is_Some, lookup_alter_is_Some].
    pose proof (Hsym u p Hpu) as Hp.
    assert (Hold : forall a b,
              delete p (delete u (active_pairs m)) !! a = Some b ->
              active_pairs m !! a = Some b /\ a <> u /\ a <> p /\ b <> u /\ b <> p).
    { intros a b Hab. apply lookup_delete_Some in Hab as [Hap Hab].
      apply lookup_delete_Some in Hab as [Hau Hab]. apply Hsym in Hab as Hba.
      split_and!; [done|done|done| |]; intros ->; congruence. }
    split; [done|]. split_and!.
    + intros a b. cbn. intros Hab. destruct (Hold a b Hab) as (Hab' & ? & ? & ? & ?).
      rewrite !lookup_delete_ne by done. by apply Hsym.
    + intros x. cbn. intros Hx.
      by apply lookup_alter_is_Some, lookup_alter_is_Some, Hkn.
    + intros a b. cbn. intros Hab. destruct (Hold a b Hab) as (Hab' & ? & ? & ? & ?).
      rewrite !lookup_alter_ne by done. by apply Hep.
    + intros q l. cbn. apply Hcap.
Qed.

(** A round of the sweep keeps all of this too: a sweep that could take the
    lock again would break neither exclusivity nor the symmetry of pairs. *)
Lemma Sessions_sweep_round u m : Sessions m -> Sessions (sweep_round u m).
Proof.
  intros HS. pose proof HS as (HI & Hsym & Hkn & Hep & Hcap). unfold sweep_round.
  destruct (Inv_end_chat_body u m HI) as [HI' Hpu'].
  assert (HI'' : Inv (set_user_states
                        (delete u (user_states (end_chat_body u m).2))
                        (end_chat_body u m).2)) by by eapply Inv_core.
  split; [done|].
  destruct (end_chat_body_cases u m HI) as [[Hpu E]|(p & Hpu & E)];
    rewrite E in *; cbn [snd] in *.
  - destruct (queue_remove_frame u m) as [_ Hap].
    destruct (queue_remove_others u m) as (Hus & _ & Hpm).
    pose proof (queue_remove_set u m) as Hset.
    unfold symmetric, known, epochs_agree, capped. cbn. rewrite Hap, Hus, Hpm, Hset.
    split_and!; [done| | |done].
    + intros x Hx. rewrite lookup_delete_ne by set_solver. apply Hkn. set_solver.
    + intros a b Hab. destruct (Hep a b Hab) as (sa & sb & Ha & Hb & Hs).
      exists sa, sb. apply Hsym in Hab as Hba.
      rewrite !lookup_delete_ne by (intros ->; congruence). done.
  - pose proof (Hsym u p Hpu) as Hp.
    assert (Hold : forall a b,
              delete p (delete u (active_pairs m)) !! a = Some b ->
              active_pairs m !! a = Some b /\ a <> u /\ a <> p /\ b <> u /\ b <> p).
    { intros a b Hab. apply lookup_delete_Some in Hab as [Hap Hab].
      apply lookup_delete_Some in Hab as [Hau Hab]. apply Hsym in Hab as Hba.
      split_and!; [done|done|done| |]; intros ->; congruence. }
    assert (Hxu : forall x, x ∈ available_set m -> x <> u).
    { intros x Hx ->. destruct HI as (_ & _ & _ & Hex & _). apply Hex in Hx. congruence. }
    split_and!.
    + intros a b. cbn. intros Hab. destruct (Hold a b Hab) as (Hab' & ? & ? & ? & ?).
      rewrite !lookup_delete_ne by done. by apply Hsym.
    + intros x. cbn. intros Hx. rewrite lookup_delete_ne by (by apply not_eq_sym, Hxu).
      by apply lookup_alter_is_Some, lookup_alter_is_Some, Hkn.
    + intros a b. cbn. intros Hab. destruct (Hold a b Hab) as (Hab' & ? & ? & ? & ?).
      rewrite !lookup_delete_ne, !lookup_alter_ne by done. by apply Hep.
    + intros q l. cbn. apply Hcap.
Qed.

Lemma push_capped_length (q : list str) x :
  (length q <= 100)%nat -> (length (push_capped q x) <= 100)%nat.
Proof. intros H. rewrite push_capped_last_n by done. apply last_n_length. Qed.

Lemma notes_frame x m :
  let m' := set_pending_notifications x m in
  active_pairs m' = active_pairs m /\ available_set m' = available_set m /\
  user_states m' = user_states m /\ (capped m -> capped m').
Proof. done. Qed.

Lemma routing_body_frame u message m :
  let m' := (_handle_message_routing_body u message m).2 in
  active_pairs m' = active_pairs m /\ available_set m' = available_set m /\
  user_states m' = user_states m /\ (capped m -> capped m').
Proof.
  unfold _handle_message_routing_body, get_partner.
  destruct (last _); [apply notes_frame|].
  cbn [active_pairs set_pending_notifications].
  destruct (active_pairs m !! u) as [[|c p]|]; [apply notes_frame| |apply notes_frame].
  cbn [user_states set_pending_notifications].
  destruct (user_states m !! u); [|apply notes_frame].
  destruct (user_states m !! (c :: p)); [|apply notes_frame].
  destruct (decide _); [|apply notes_frame].
  cbn. split_and!; try done.
  intros Hcap x q. cbn. destruct (decide (x = c :: p)) as [->|Hne].
  - rewrite lookup_insert_eq. intros [= <-]. apply push_capped_length.
    destruct (pending_messages m !! (c :: p)) as [q0|] eqn:E; cbn; [|lia].
    by eapply Hcap.
  - rewrite lookup_insert_ne by done. apply Hcap.
Qed.

Lemma capped_delete u m :
  capped m -> capped (set_pending_messages (delete u (pending_messages m)) m).
Proof. intros H p q. cbn. intros Hq. apply lookup_delete_Some in Hq as [_ Hq]. by eapply H. Qed.

Lemma Sessions_capped m : Sessions m -> capped m.
Proof. by intros (_ & _ & _ & _ & ?). Qed.

Lemma Sessions_process_message u message nick e m r m' :
  Sessions m -> u <> [] -> process_message u message nick e m = Some (r, m') ->
  Sessions m'.
Proof.
  intros HS Hu H.
  cut (Sessions m' /\ is_Some (user_states m' !! u)); [by intros [? _]|].
  revert HS H.
  apply (serving_process_message u Sessions
           (fun m => Sessions m /\ is_Some (user_states m !! u))).
  - intros m0 H0. by apply Inv_lock, Sessions_Inv.
  - by intros m0 [? _].
  - intros. by apply Sessions_touch.
  - intros m0 [H0 _]. by apply untruthy_partner, Sessions_Inv.
  - intros sid m0 [H0 Hs] Hp. by apply Sessions_find.
  - intros m0 [H0 Hs]. split; [by apply Sessions_end|].
    by apply Inv_end_chat_body, Sessions_Inv.
  - intros msg m0 [H0 Hs].
    destruct (routing_body_frame u msg m0) as (Hap & Hset & Hus & Hcap).
    split; [|by rewrite Hus].
    eapply Sessions_frame; [exact H0| |done|done|by apply keeps_epochs_refl|].
    + by apply Inv_routing_body, Sessions_Inv.
    + by apply Hcap, Sessions_capped.
  - intros m0 [H0 Hs]. split; [|cbn; by apply lookup_alter_is_Some].
    eapply Sessions_frame; [exact H0| |done|done| |exact (Sessions_capped _ H0)].
    + eapply Inv_core; [by apply Sessions_Inv|done..].
    + by apply (keeps_epochs_alter flip_masking u).
  - intros m0 [H0 Hs]. split; [|done].
    eapply Sessions_frame; [exact H0| |done|done|by apply keeps_epochs_refl|
                            exact (Sessions_capped _ H0)].
    eapply Inv_core; [by apply Sessions_Inv|done..].
  - intros m0 [H0 Hs]. split; [|done].
    eapply Sessions_frame; [exact H0| |done|done|by apply keeps_epochs_refl|
                            by apply capped_delete, Sessions_capped].
    eapply Inv_core; [by apply Sessions_Inv|done..].
Qed.

Lemma served_Sessions m : served m -> Sessions m.
Proof.
  unfold served. intros H.
  eapply (rtc_ind_r (fun m => Sessions m) init); [apply Sessions_init| |exact H].
  intros y z _ Hyz HS.
  destruct Hyz as [u message nick e m0 r m0' Hu Hpm|timeout t m0 m0' Hc].
  - by eapply Sessions_process_message.
  - by apply cleanup_returns in Hc as [_ ->].
Qed.

(** With non-empty identifiers C2 holds: whatever messages and sweeps the
    manager has served, partners point at each other and their profiles
    carry the same epoch. *)
Lemma pairs_symmetric_nonempty_ids m a b :
  served m -> active_pairs m !! a = Some b ->
  active_pairs m !! b = Some a /\
  exists sa sb, user_states m !! a = Some sa /\ user_states m !! b = Some sb /\
                partner_session_id sa = partner_session_id sb.
Proof.
  intros H Hab. apply served_Sessions in H as (_ & Hsym & _ & Hep & _).
  split; [by apply Hsym|by apply Hep].
Qed.

(** In the states the server reaches the message queues respect the cap,
    as C7 supposes. *)
Lemma served_capped m : served m -> capped m.
Proof. intros H. by apply Sessions_capped, served_Sessions. Qed.

(** ** Redaction (C5, C6) *)

Lemma is_digit_word c : is_digit c = true -> is_word c = true.
Proof.
  unfold is_digit, is_word. destruct (c <? 128); intros ->; done.
Qed.

Lemma backtrack_eq try lo n :
  backtrack try lo n
  = if (n <? lo)%nat then None
    else match try n with
         | Some r => Some r
         | None => match n with O => None | S n' => backtrack try lo n' end
         end.
Proof. by destruct n. Qed.

Lemma backtrack_Some try lo n r :
  backtrack try lo n = Some r -> exists j, (lo <= j <= n)%nat /\ try j = Some r.
Proof.
  induction n as [|n IH]; rewrite backtrack_eq;
    (destruct (_ <? lo)%nat eqn:E; [done|]); apply Nat.ltb_ge in E.
  - destruct (try 0%nat) eqn:T; [|done]. intros [= <-]. exists 0%nat. split; [lia|done].
  - destruct (try (S n)) eqn:T.
    + intros [= <-]. exists (S n). split; [lia|done].
    + intros H. destruct (IH H) as (j & Hj & Ht). exists j. split; [lia|done].
Qed.

Lemma backtrack_is_Some try lo n j :
  (lo <= j <= n)%nat -> is_Some (try j) -> is_Some (backtrack try lo n).
Proof.
  intros Hj Ht. induction n as [|n IH]; rewrite backtrack_eq;
    (destruct (_ <? lo)%nat eqn:E; [apply Nat.ltb_lt in E; lia|]).
  - replace j with 0%nat in Ht by lia. destruct (try 0%nat); [by eexists|].
    by destruct Ht.
  - destruct (try (S n)) eqn:T; [by eexists|].
    apply IH. destruct (decide (j = S n)) as [->|]; [|lia].
    rewrite T in Ht. by destruct Ht.
Qed.

Lemma backtrack_ext try try' lo n :
  (forall j, try j = try' j) -> backtrack try lo n = backtrack try' lo n.
Proof.
  intros H. induction n as [|n IH];
    rewrite (backtrack_eq try), (backtrack_eq try'), H; [done|].
  by rewrite IH.
Qed.

Lemma span_le k s : (span k s <= length s)%nat.
Proof. induction s as [|c s IH]; cbn; [lia|]. destruct (in_cls k c); cbn; lia. Qed.

Lemma span_take k s j :
  (j <= span k s)%nat -> Forall (fun c => in_cls k c = true) (take j s).
Proof.
  revert j. induction s as [|c s IH]; intros j Hj; [by rewrite take_nil|].
  destruct j as [|j]; [constructor|]. cbn in *.
  destruct (in_cls k c) eqn:E; [|lia]. constructor; [done|]. apply IH. lia.
Qed.

Lemma span_ge k s j :
  (j <= length s)%nat -> Forall (fun c => in_cls k c = true) (take j s) ->
  (j <= span k s)%nat.
Proof.
  revert j. induction s as [|c s IH]; intros j Hj Hf; cbn in *; [lia|].
  destruct j as [|j]; [lia|]. cbn in Hf. apply Forall_cons in Hf as [-> Hf].
  apply le_n_S, IH; [lia|done].
Qed.

Lemma greedy_le k hi s : (greedy k hi s <= span k s)%nat.
Proof. unfold greedy. destruct hi; lia. Qed.

Lemma greedy_hi k h s : (greedy k (Some h) s <= h)%nat.
Proof. unfold greedy. lia. Qed.

Lemma greedy_ge k hi s j :
  (j <= span k s)%nat -> (forall h, hi = Some h -> (j <= h)%nat) ->
  (j <= greedy k hi s)%nat.
Proof.
  intros Hs Hh. unfold greedy. destruct hi as [h|]; [|done].
  specialize (Hh h eq_refl). lia.
Qed.

Lemma in_alphabet_cons it rest c :
  in_alphabet (it :: rest) c = item_accepts it c || in_alphabet rest c.
Proof. done. Qed.

(** A match lies within the text, is at least [min_len] long and is made
    of characters of the pattern. *)
Lemma match_here_sound items : forall pw s n,
  match_here items pw s = Some n ->
  (n <= length s)%nat /\ (min_len items <= n)%nat /\
  Forall (fun c => in_alphabet items c = true) (take n s).
Proof.
  induction items as [|[k lo hi|] rest IH]; intros pw s n H.
  - injection H as <-. cbn. split_and!; [lia|lia|by rewrite take_0].
  - cbn [match_here] in H. apply backtrack_Some in H as (j & Hj & Ht).
    destruct (match_here rest _ _) as [r|] eqn:E; [|done]. injection Ht as <-.
    apply IH in E as (Hr1 & Hr2 & Hr3).
    pose proof (greedy_le k hi s). pose proof (span_le k s).
    rewrite length_drop in Hr1. cbn [min_len]. split_and!; [lia|lia|].
    rewrite <- take_take_drop, Forall_app. split.
    + eapply Forall_impl; [apply (span_take k s j); lia|].
      intros c Hc. rewrite in_alphabet_cons. cbn. by rewrite Hc.
    + eapply Forall_impl; [exact Hr3|].
      intros c Hc. rewrite in_alphabet_cons, Hc. apply orb_true_r.
  - cbn [match_here] in H. destruct (xorb _ _); [|done].
    apply IH in H as (? & ? & ?). split_and!; done.
Qed.

Lemma match_here_nil items pw :
  (0 < min_len items)%nat -> match_here items pw [] = None.
Proof.
  intros H. destruct (match_here items pw []) as [n|] eqn:E; [|done].
  apply match_here_sound in E as (? & ? & _). cbn in *. lia.
Qed.

Lemma match_here_head items pw c t n :
  (0 < min_len items)%nat -> match_here items pw (c :: t) = Some n ->
  in_alphabet items c = true.
Proof.
  intros Hm H. apply match_here_sound in H as (_ & Hn & Hf).
  destruct n as [|n]; [lia|]. cbn in Hf. by apply Forall_cons in Hf as [? _].
Qed.

Lemma match_here_outside items pw c t :
  (0 < min_len items)%nat -> in_alphabet items c = false ->
  match_here items pw (c :: t) = None.
Proof.
  intros Hm Hc. destruct (match_here items pw (c :: t)) as [n|] eqn:E; [|done].
  apply match_here_head in E; [congruence|done].
Qed.

(** Without [\b] the context does not matter. *)
Lemma match_here_pw items :
  boundary_free items = true ->
  forall pw pw' s, match_here items pw s = match_here items pw' s.
Proof.
  induction items as [|[k lo hi|] rest IH]; intros Hb pw pw' s; [done| |done].
  cbn [match_here]. apply backtrack_ext. intros j.
  by rewrite (IH Hb _ (after_word pw' (take j s))).
Qed.

(** A match that lies within [u] is found whatever follows [u]. *)
Lemma match_here_stable items :
  boundary_free items = true ->
  forall pw u t' n, match_here items pw (u ++ t') = Some n -> (n <= length u)%nat ->
  forall pw' t, is_Some (match_here items pw' (u ++ t)).
Proof.
  induction items as [|[k lo hi|] rest IH]; intros Hb pw u t' n H Hn pw' t;
    [by eexists| |done].
  cbn [match_here] in *. apply backtrack_Some in H as (j & Hj & Ht).
  destruct (match_here rest _ _) as [r|] eqn:E; [|done]. injection Ht as <-.
  assert (Hju : (j <= length u)%nat) by lia.
  rewrite drop_app_le in E by done.
  apply (backtrack_is_Some _ _ _ j).
  - split; [lia|]. apply greedy_ge.
    + apply span_ge; [rewrite length_app; lia|].
      rewrite take_app_le by done. rewrite <- (take_app_le u t') by done.
      apply span_take. pose proof (greedy_le k hi (u ++ t')). lia.
    + intros h ->. pose proof (greedy_hi k h (u ++ t')). lia.
  - rewrite drop_app_le by done.
    destruct (IH Hb _ (drop j u) t' r E) with
      (pw' := after_word pw' (take j (u ++ t))) (t := t) as [r' ->].
    + rewrite length_drop. lia.
    + by eexists.
Qed.

Lemma sim_split A s t :
  sim A s t ->
  exists u r r', s = u ++ r /\ t = u ++ r' /\
                 match r' with [] => True | c :: _ => A c = false end.
Proof.
  induction 1 as [|c s t _ (u & r & r' & -> & -> & Hr)|c s t Hc].
  - by exists [], [], [].
  - by exists (c :: u), r, r'.
  - by exists [], s, (c :: t).
Qed.

(** The output of a scan follows the input up to the first placeholder. *)
Lemma sim_sub A R : A 91 = false -> forall s pw, sim A s (sub_aux R pw 0 s).
Proof.
  intros HA. induction s as [|c s IH]; intros pw; cbn [sub_aux]; [constructor|].
  destruct (match_here R pw (c :: s)) as [[|n]|].
  - by constructor.
  - by apply sim_stop.
  - by constructor.
Qed.

Lemma plain_boundary_free Q : plain Q = true -> boundary_free Q = true.
Proof. unfold plain. intros H. by repeat (apply andb_true_iff in H as [H _]). Qed.

Lemma plain_min_len Q : plain Q = true -> (0 < min_len Q)%nat.
Proof.
  unfold plain. intros H. apply andb_true_iff in H as [H _].
  apply andb_true_iff in H as [_ H]. by apply Nat.ltb_lt.
Qed.

Lemma plain_hidden Q :
  plain Q = true -> Forall (fun c => in_alphabet Q c = false) hidden.
Proof.
  unfold plain. intros H. apply andb_true_iff in H as [_ H].
  rewrite forallb_forall in H. apply Forall_forall. intros c Hc.
  apply list_elem_of_In, H in Hc. by apply negb_true_iff.
Qed.

Lemma plain_bracket Q : plain Q = true -> in_alphabet Q 91 = false.
Proof. intros H. apply plain_hidden in H. by inversion H. Qed.

(** A match of a plain pattern in the output of a scan is a match in the
    input. *)
Lemma match_through_sim Q s t pw pw' n :
  plain Q = true -> sim (in_alphabet Q) s t ->
  match_here Q pw t = Some n -> is_Some (match_here Q pw' s).
Proof.
  intros HQ Hs Hm. apply sim_split in Hs as (u & r & r' & -> & -> & Hr).
  eapply (match_here_stable Q (plain_boundary_free Q HQ) pw u r' n Hm).
  apply match_here_sound in Hm as (Hn & _ & Hf).
  destruct (decide (n <= length u)%nat) as [|Hgt]; [done|]. exfalso.
  rewrite length_app in Hn. destruct r' as [|c r']; cbn in Hn; [lia|].
  rewrite take_app_ge in Hf by lia. apply Forall_app in Hf as [_ Hf].
  destruct (n - length u)%nat as [|k] eqn:E; [lia|]. cbn in Hf.
  apply Forall_cons in Hf as [Hc _]. congruence.
Qed.

Lemma nomatch_head items pw t : nomatch items pw t -> match_here items pw t = None.
Proof. destruct t; by intros [? _]. Qed.

Lemma nomatch_pw Q :
  boundary_free Q = true -> forall t pw pw', nomatch Q pw t -> nomatch Q pw' t.
Proof.
  intros HQ. induction t as [|c t IH]; intros pw pw' [H1 H2]; cbn; split;
    rewrite ?(match_here_pw Q HQ pw' pw); eauto.
Qed.

(** Where no match is found the scan copies the text. *)
Lemma nomatch_fixed R : forall t pw, nomatch R pw t -> sub_aux R pw 0 t = t.
Proof.
  induction t as [|c t IH]; intros pw [H1 H2]; cbn [sub_aux]; [done|].
  rewrite H1. f_equal. by apply IH.
Qed.

Lemma after_word_cons pw c a : after_word pw (c :: a) = after_word (is_word c) a.
Proof.
  unfold after_word. destruct a as [|d a]; [done|].
  change (last (c :: d :: a)) with (last (d :: a)).
  destruct (last (d :: a)) eqn:E; [done|]. by apply last_None in E.
Qed.

Lemma nomatch_split items : forall a pw b,
  nomatch items pw (a ++ b) -> match_here items (after_word pw a) b = None.
Proof.
  induction a as [|c a IH]; intros pw b H.
  - by apply nomatch_head.
  - rewrite after_word_cons. apply IH. by destruct H.
Qed.

Lemma nomatch_outside Q (l : str) : forall pw pw' t,
  plain Q = true -> Forall (fun c => in_alphabet Q c = false) l ->
  nomatch Q pw' t -> nomatch Q pw (l ++ t).
Proof.
  induction l as [|c l IH]; intros pw pw' t HQ Hl Ht.
  - by apply (nomatch_pw Q (plain_boundary_free Q HQ) t pw').
  - apply Forall_cons in Hl as [Hc Hl]. cbn. split.
    + by apply match_here_outside; [apply plain_min_len|].
    + by eapply IH.
Qed.

Lemma quiet_self R : plain R = true -> forall s pw skip, quiet R R pw skip s.
Proof.
  intros HR. induction s as [|c s IH]; intros pw skip; cbn [quiet]; [done|].
  destruct skip; [|done].
  destruct (match_here R pw (c :: s)) as [[|n]|] eqn:E; [|done|].
  - apply match_here_sound in E as (_ & E & _).
    pose proof (plain_min_len R HR). lia.
  - split; [|done].
    by rewrite (match_here_pw R (plain_boundary_free R HR) false pw).
Qed.

Lemma quiet_of_nomatch Q R :
  boundary_free Q = true ->
  forall s pw skip pw0, nomatch Q pw0 s -> quiet Q R pw skip s.
Proof.
  intros HQ. induction s as [|c s IH]; intros pw skip pw0 [H1 H2]; cbn [quiet];
    [done|].
  destruct skip; [|by eapply IH].
  destruct (match_here R pw (c :: s)) as [[|n]|];
    try (split; [by rewrite (match_here_pw Q HQ false pw0)|]); by eapply IH.
Qed.

(** If [Q] matches at none of the copied positions, it matches nowhere in
    the output. *)
Lemma quiet_out Q R :
  plain Q = true ->
  forall s pw skip pw', quiet Q R pw skip s -> nomatch Q pw' (sub_aux R pw skip s).
Proof.
  intros HQ.
  pose proof (plain_boundary_free Q HQ) as Hb. pose proof (plain_min_len Q HQ) as Hm.
  assert (Hcopy : forall c s pw pw',
            match_here Q false (c :: s) = None ->
            match_here Q pw' (c :: sub_aux R pw 0 s) = None).
  { intros c s pw pw' Hn.
    destruct (match_here Q pw' (c :: sub_aux R pw 0 s)) as [n|] eqn:E; [|done].
    eapply (match_through_sim Q (c :: s) _ pw' false n HQ) in E as [r Hr];
      [congruence|].
    constructor. apply sim_sub. by apply plain_bracket. }
  induction s as [|c s IH]; intros pw skip pw' Hq; cbn [sub_aux quiet] in *.
  - split; [by apply match_here_nil|done].
  - destruct skip; [|by apply IH].
    destruct (match_here R pw (c :: s)) as [[|n]|].
    + destruct Hq as [Hq1 Hq2]. split; [by apply Hcopy|by apply IH].
    + eapply nomatch_outside; [done|by apply plain_hidden|]. by apply (IH _ _ false).
    + destruct Hq as [Hq1 Hq2]. split; [by apply Hcopy|by apply IH].
Qed.

(** What a scan for any pattern leaves out of reach of a plain pattern
    stays out of its reach. *)
Lemma sub_keeps_nomatch Q R s pw pw' :
  plain Q = true -> nomatch Q pw s -> nomatch Q pw' (sub R s).
Proof.
  intros HQ H. apply quiet_out; [done|].
  by apply (quiet_of_nomatch Q R (plain_boundary_free Q HQ) s false 0%nat pw).
Qed.

(** After the scan for a plain pattern, the pattern matches nowhere. *)
Lemma sub_nomatch R s pw : plain R = true -> nomatch R pw (sub R s).
Proof. intros HR. apply quiet_out; [done|]. by apply quiet_self. Qed.

(** *** The catch-all pattern *)

Lemma span_head_word s : (1 <= span Digit s)%nat -> head_word s = true.
Proof.
  destruct s as [|c s]; cbn; [lia|].
  destruct (is_digit c) eqn:E; [|lia]. intros _. by apply is_digit_word.
Qed.

Lemma head_word_span s : head_word s = false -> span Digit s = 0%nat.
Proof.
  intros H. destruct (span Digit s) eqn:E; [done|].
  rewrite span_head_word in H; [done|lia].
Qed.

Lemma span_drop s j : (j <= span Digit s)%nat -> span Digit (drop j s) = (span Digit s - j)%nat.
Proof.
  revert j. induction s as [|c s IH]; intros j Hj; [by rewrite drop_nil|].
  destruct j as [|j]; [cbn; lia|]. cbn in *.
  destruct (is_digit c); [|lia]. rewrite IH by lia. lia.
Qed.

Lemma after_word_digits pw s j :
  (1 <= j <= span Digit s)%nat -> after_word pw (take j s) = true.
Proof.
  revert pw j. induction s as [|c s IH]; intros pw j Hj; cbn in Hj; [lia|].
  destruct (is_digit c) eqn:E; [|lia].
  destruct j as [|j]; [lia|]. cbn [take]. rewrite after_word_cons.
  destruct j as [|j].
  - rewrite take_0. cbn. by apply is_digit_word.
  - apply IH. lia.
Qed.

(** The catch-all pattern matches exactly a maximal run of eight digits or
    more with no word character on either side. *)
Lemma catch_all_match pw s n :
  match_here catch_all pw s = Some n <->
  pw = false /\ n = span Digit s /\ (8 <= n)%nat /\ head_word (drop n s) = false.
Proof.
  unfold catch_all, at_least. cbn [match_here greedy]. split.
  - destruct (xorb pw (head_word s)) eqn:Ex; [|done]. intros H.
    apply backtrack_Some in H as (j & Hj & Ht).
    rewrite (after_word_digits pw s j) in Ht by lia. cbn in Ht.
    destruct (head_word (drop j s)) eqn:Eh; [done|]. cbn in Ht.
    injection Ht as <-. rewrite Nat.add_0_r.
    assert (Hs : span Digit (drop j s) = 0%nat) by by apply head_word_span.
    rewrite span_drop in Hs by lia.
    rewrite span_head_word in Ex by lia.
    destruct pw; [done|]. split_and!; [done|lia|lia|done].
  - intros (-> & -> & H8 & Hh). rewrite span_head_word by lia. cbn.
    rewrite backtrack_eq. destruct (_ <? 8)%nat eqn:E; [apply Nat.ltb_lt in E; lia|].
    rewrite after_word_digits by lia. rewrite Hh. cbn. by rewrite Nat.add_0_r.
Qed.

Lemma catch_all_short pw s : (span Digit s < 8)%nat -> match_here catch_all pw s = None.
Proof.
  intros H. destruct (match_here catch_all pw s) as [n|] eqn:E; [|done].
  apply catch_all_match in E as (_ & -> & ? & _). lia.
Qed.

Lemma sim_bound_sub : forall s pw, sim_bound pw s (sub_aux catch_all pw 0 s).
Proof.
  induction s as [|c s IH]; intros pw; cbn [sub_aux]; [constructor|].
  destruct (match_here catch_all pw (c :: s)) as [[|n]|] eqn:E.
  - by constructor.
  - apply catch_all_match in E as (-> & _). constructor.
  - by constructor.
Qed.

Lemma sim_bound_tail s t :
  sim_bound true s t ->
  span Digit s = span Digit t /\
  head_word (drop (span Digit s) s) = head_word (drop (span Digit t) t).
Proof.
  intros H. remember true as pw eqn:Hpw.
  induction H as [pw|pw c s t H IH|s t]; [done| |done].
  cbn [span in_cls]. destruct (is_digit c) eqn:E; [|done].
  destruct (IH (is_digit_word c E)) as [-> IH2]. done.
Qed.

Lemma catch_all_through_sim c s t pw n :
  sim_bound (is_word c) s t ->
  match_here catch_all pw (c :: t) = Some n -> match_here catch_all pw (c :: s) = Some n.
Proof.
  intros Hs Hm. apply catch_all_match in Hm as (-> & -> & H8 & Hh).
  cbn [span in_cls] in *. destruct (is_digit c) eqn:E; [|lia].
  rewrite (is_digit_word c E) in Hs. apply sim_bound_tail in Hs as [Hs1 Hs2].
  apply catch_all_match. cbn [span in_cls]. rewrite E, Hs1.
  split_and!; [done|done|done|]. cbn [drop] in *. by rewrite <- Hs1, Hs2.
Qed.

Lemma hidden_eq : hidden = [91; 104; 105; 100; 100; 101; 110; 93].
Proof. reflexivity. Qed.

Lemma nomatch_catch_all_outside (l : str) :
  Forall (fun c => is_digit c = false) l ->
  forall pw t, nomatch catch_all (after_word pw l) t -> nomatch catch_all pw (l ++ t).
Proof.
  induction 1 as [|c l Hc _ IH]; intros pw t Ht; [done|].
  cbn [app nomatch]. split.
  - apply catch_all_short. cbn [span in_cls]. rewrite Hc. lia.
  - apply IH. by rewrite <- (after_word_cons pw).
Qed.

Lemma nomatch_catch_all_hidden pw t :
  nomatch catch_all false t -> nomatch catch_all pw (hidden ++ t).
Proof.
  intros H. apply nomatch_catch_all_outside.
  - rewrite hidden_eq. repeat constructor.
  - by rewrite hidden_eq.
Qed.

(** After the scan for the catch-all pattern, the pattern matches nowhere. *)
Lemma catch_all_out : forall s pw skip opw,
  ctx_ok pw skip opw s -> nomatch catch_all opw (sub_aux catch_all pw skip s).
Proof.
  induction s as [|c s IH]; intros pw skip opw Hc; cbn [sub_aux].
  { split; [by apply catch_all_short; cbn; lia|done]. }
  destruct skip as [|k].
  - destruct (match_here catch_all pw (c :: s)) as [[|n]|] eqn:E.
    + apply catch_all_match in E as (_ & _ & ? & _). lia.
    + apply nomatch_catch_all_hidden. apply IH.
      apply catch_all_match in E as (-> & Hn & H8 & Hh). cbn [drop] in Hh.
      destruct n as [|n]; cbn.
      * right. split; [done|]. by apply head_word_span.
      * done.
    + split; [|apply IH; by left].
      destruct Hc as [->|[-> Hsp]].
      * destruct (match_here catch_all pw (c :: sub_aux catch_all (is_word c) 0 s))
          as [n|] eqn:E'; [|done].
        apply (catch_all_through_sim c s) in E'; [congruence|apply sim_bound_sub].
      * apply catch_all_short. cbn [span in_cls] in *.
        destruct (is_digit c); [done|lia].
  - apply IH. destruct Hc as [-> Hh]. cbn [drop] in Hh. destruct k as [|k]; cbn.
    + right. split; [done|]. by apply head_word_span.
    + done.
Qed.

Lemma sub_catch_all_nomatch s : nomatch catch_all false (sub catch_all s).
Proof. apply catch_all_out. by left. Qed.

(** *** The whole redaction *)

Lemma phone_patterns_plain : Forall (fun Q => plain Q = true) phone_patterns.
Proof. repeat constructor. Qed.

Lemma sub_all_keeps_nomatch Q pw : plain Q = true ->
  forall ps s, nomatch Q pw s -> nomatch Q pw (sub_all ps s).
Proof.
  intros HQ. induction ps as [|R ps IH]; intros s H; [done|].
  cbn. apply IH. by apply (sub_keeps_nomatch Q R s pw).
Qed.

(** After the scans for a list of plain patterns none of them matches. *)
Lemma sub_all_nomatch ps :
  Forall (fun Q => plain Q = true) ps ->
  forall s, Forall (fun Q => nomatch Q false (sub_all ps s)) ps.
Proof.
  induction 1 as [|Q ps HQ _ IH]; intros s; [constructor|].
  constructor; [|apply IH].
  cbn. apply sub_all_keeps_nomatch; [done|]. by apply sub_nomatch.
Qed.

Lemma sub_all_fixed ps t :
  Forall (fun Q => nomatch Q false t) ps -> sub_all ps t = t.
Proof.
  induction 1 as [|Q ps HQ _ IH]; [done|].
  cbn. unfold sub. by rewrite (nomatch_fixed Q t false HQ).
Qed.

(** In redacted text no pattern of [mask_phone_numbers] matches. *)
Lemma mask_nomatch s :
  Forall (fun Q => nomatch Q false (mask_phone_numbers s)) phone_patterns /\
  nomatch catch_all false (mask_phone_numbers s).
Proof.
  destruct s as [|c s].
  - split; [|by split; [apply catch_all_short; cbn; lia|]].
    eapply Forall_impl; [apply phone_patterns_plain|]. intros Q HQ. cbn.
    split; [|done]. by apply match_here_nil, plain_min_len.
  - unfold mask_phone_numbers. split; [|apply sub_catch_all_nomatch].
    pose proof (sub_all_nomatch phone_patterns phone_patterns_plain (c :: s)) as H.
    pose proof phone_patterns_plain as Hp.
    rewrite Forall_forall in *. intros Q HQ.
    apply (sub_keeps_nomatch Q catch_all _ false); [by apply Hp|by apply H].
Qed.

(** C5.  Redacting redacted text changes nothing. *)
Theorem mask_idempotent s :
  mask_phone_numbers (mask_phone_numbers s) = mask_phone_numbers s.
Proof.
  destruct (mask_nomatch s) as [Hp Hc].
  destruct (mask_phone_numbers s) as [|c t] eqn:E; [done|].
  unfold mask_phone_numbers at 1. rewrite (sub_all_fixed _ _ Hp).
  unfold sub. by apply nomatch_fixed.
Qed.

Lemma span_app_digits run post :
  Forall (fun c => is_digit c = true) run -> head_word post = false ->
  span Digit (run ++ post) = length run.
Proof.
  intros Hr Hp. induction Hr as [|c run Hc _ IH]; cbn [app span in_cls length].
  - by apply head_word_span.
  - by rewrite Hc, IH.
Qed.

(** C6 (as the code has it).  In redacted text every run of eight digits or
    more touches a word character (a letter, a digit or an underscore) on
    one side at least: the catch-all rule has masked every run that stands
    between word boundaries.  The text [call me at 9876543210] comes out
    with no run of eight digits. *)
Theorem bounded_digit_runs_masked :
  (forall s pre run post,
     mask_phone_numbers s = pre ++ run ++ post ->
     Forall (fun c => is_digit c = true) run -> (8 <= length run)%nat ->
     after_word false pre = true \/ head_word post = true) /\
  mask_phone_numbers (lit "call me at 9876543210") = lit "call me at [hidden]" /\
  has_digit_run 8 (mask_phone_numbers (lit "call me at 9876543210")) = false.
Proof.
  split; [|split; reflexivity].
  intros s pre run post Hs Hr H8.
  destruct (after_word false pre) eqn:Ea; [by left|].
  destruct (head_word post) eqn:Eh; [by right|]. exfalso.
  destruct (mask_nomatch s) as [_ Hc]. rewrite Hs in Hc.
  apply nomatch_split in Hc. rewrite Ea in Hc.
  assert (Hm : match_here catch_all false (run ++ post) = Some (length run)).
  { apply catch_all_match. rewrite (span_app_digits run post Hr Eh).
    split_and!; [done|done|done|]. by rewrite drop_app_length. }
  congruence.
Qed.

(** * Further properties of the code *)

(** ** The waiting queue *)

Lemma without_length u (q : list str) : (length (without u q) <= length q)%nat.
Proof. unfold without. apply length_filter. Qed.

Lemma routing_body_users u message m :
  available_users (_handle_message_routing_body u message m).2 = available_users m.
Proof.
  unfold _handle_message_routing_body, get_partner.
  destruct (last _); [done|].
  cbn [active_pairs set_pending_notifications user_states].
  destruct (active_pairs m !! u) as [[|c p]|]; [done| |done].
  destruct (user_states m !! u); [|done].
  destruct (user_states m !! (c :: p)); [|done]. by destruct (decide _).
Qed.

Lemma Waits_find u sid m :
  Waits m -> u <> [] -> active_pairs m !! u = None -> Waits (find_partner_body u sid m).2.
Proof.
  intros [HI Hlen] Hu Hp. split; [by apply Inv_find_partner_body|].
  pose proof (Inv_queue_remove u m HI) as (_ & _ & Hq & _).
  destruct HI as (_ & Hnd & Hq0 & _).
  pose proof (queue_remove_users u m Hnd Hq0) as Hus.
  pose proof (without_length u (available_users m)) as Hw.
  unfold find_partner_body. set (m0 := _queue_remove u m) in *. clearbody m0.
  destruct (available_users m0) as [|h q] eqn:E.
  - cbn [snd]. unfold _queue_add. destruct (decide _).
    + rewrite E. cbn. lia.
    + rewrite E. cbn. lia.
  - assert (Hh : h ∈ available_set m0) by (apply Hq; set_solver).
    cbn [pop_candidate]. rewrite decide_True by done. cbn.
    rewrite <- Hus in Hw. cbn in Hw. lia.
Qed.

Lemma Waits_end u m : Waits m -> Waits (end_chat_body u m).2.
Proof.
  intros [HI Hlen]. split; [by apply Inv_end_chat_body|].
  destruct (end_chat_body_cases u m HI) as [[_ E]|(p & _ & E)]; rewrite E; cbn; [|done].
  destruct HI as (_ & Hnd & Hq0 & _). rewrite (queue_remove_users u m Hnd Hq0).
  pose proof (without_length u (available_users m)). lia.
Qed.

Lemma Waits_process_message u message nick e m r m' :
  Waits m -> u <> [] -> process_message u message nick e m = Some (r, m') -> Waits m'.
Proof.
  intros HW Hu. revert HW. apply (serving_process_message u Waits Waits).
  - by intros m0 [? _]; apply Inv_lock.
  - done.
  - intros ? ? m0 [H ?]. split; [by eapply Inv_core|done].
  - intros m0 [H _]. by apply untruthy_partner.
  - intros sid m0 H. by apply Waits_find.
  - intros m0 H. split; [by apply Waits_end|].
    destruct H as [H _]. by apply Inv_end_chat_body.
  - intros msg m0 [H ?]. split; [by apply Inv_routing_body|].
    by rewrite routing_body_users.
  - intros m0 [H ?]. split; [by eapply Inv_core|done].
  - intros m0 [H ?]. split; [by eapply Inv_core|done].
  - intros m0 [H ?]. split; [by eapply Inv_core|done].
Qed.

Lemma reachable_Waits m : reachable m -> Waits m.
Proof.
  unfold reachable. intros H.
  eapply (rtc_ind_r (fun m => Waits m) init); [|clear H|exact H].
  { split; [apply Inv_init|cbn; lia]. }
  intros y z _ Hyz HW.
  destruct Hyz as [u message nick e m0 r m0' Hu H | u sid m0 r m0' Hu Hp H
                  | u m0 r m0' H | timeout t m0 m0' H].
  - by eapply Waits_process_message.
  - rewrite find_partner_eq in H by (by destruct HW as [? _]; apply Inv_lock).
    injection H as H. pose proof (Waits_find u sid m0 HW Hu Hp) as HW'.
    by rewrite H in HW'.
  - rewrite end_chat_eq in H by (by destruct HW as [? _]; apply Inv_lock).
    injection H as H. pose proof (Waits_end u m0 HW) as HW'. by rewrite H in HW'.
  - by apply cleanup_returns in H as [_ ->].
Qed.

(** X1.  At most one user waits: whoever asks for a match while someone
    waits is paired with that user, so the queue never grows beyond one. *)
Theorem at_most_one_waits m :
  reachable m ->
  (length (available_users m) <= 1)%nat /\ (size (available_set m) <= 1)%nat.
Proof.
  intros H. apply reachable_Waits in H as [(_ & Hnd & Hq & _) Hlen].
  split; [done|].
  assert (Hs : available_set m = list_to_set (available_users m)).
  { apply set_eq. intros x. rewrite elem_of_list_to_set. apply Hq. }
  rewrite Hs, size_list_to_set by done. done.
Qed.

(** ** The sweep *)

Lemma inactive_users_nil timeout t m :
  inactive_users timeout t m = [] <->
  forall u st, user_states m !! u = Some st -> inactive timeout t st = false.
Proof.
  unfold inactive_users. split.
  - intros H u st Hu. apply fmap_nil_inv in H. apply elem_of_map_to_list in Hu.
    destruct (inactive timeout t st) eqn:Hs; [|done].
    by apply (filter_nil_not_elem_of _ _ (u, st) H) in Hu.
  - intros H.
    destruct (filter _ (map_to_list (user_states m))) as [|[u st] l] eqn:E; [done|].
    assert (Hin : (u, st) ∈ filter
              (fun p : str * UserState => inactive timeout t p.2 = true)
              (map_to_list (user_states m))) by (rewrite E; set_solver).
    apply list_elem_of_filter in Hin as [Hlt Hin]. apply elem_of_map_to_list in Hin.
    specialize (H u st Hin). cbn in Hlt. congruence.
Qed.

(** X2.  [cleanup_inactive_users] evicts nobody.  When some profile passes
    its test of inactivity ([total_seconds() > timeout_minutes * 60], the
    float compared with the int) it calls [end_chat], which waits for the
    lock the sweep holds, and never returns; it returns only when no
    profile passes the test, and then the manager is as before. *)
Theorem cleanup_evicts_nobody timeout t m :
  lock m = false ->
  match cleanup_inactive_users timeout t m with
  | Some (_, m') =>
      m' = m /\
      forall u st, user_states m !! u = Some st -> inactive timeout t st = false
  | None =>
      exists u st, user_states m !! u = Some st /\ inactive timeout t st = true
  end.
Proof.
  intros Hl. destruct (cleanup_inactive_users timeout t m) as [[r m']|] eqn:E.
  - apply cleanup_returns in E as [E ->]. split; [done|]. by apply inactive_users_nil.
  - destruct (inactive_users timeout t m) as [|u us] eqn:Ei.
    + unfold cleanup_inactive_users, with_lock in E. rewrite Hl in E.
      replace (inactive_users timeout t (set_lock true m))
        with (inactive_users timeout t m) in E by by destruct m.
      by rewrite Ei in E.
    + assert (Hin : u ∈ inactive_users timeout t m) by (rewrite Ei; set_solver).
      unfold inactive_users in Hin. apply list_elem_of_fmap in Hin as ([u' st] & -> & Hin).
      apply list_elem_of_filter in Hin as [Hlt Hin]. apply elem_of_map_to_list in Hin.
      by exists u', st.
Qed.

Lemma get_system_stats_eq m :
  lock m = false ->
  get_system_stats m
  = Some (mkStats (size (user_states m)) (length (available_users m))
            (size (active_pairs m) / 2) (size (active_pairs m) / 2), m).
Proof.
  intros Hl. unfold get_system_stats.
  rewrite (with_lock_free
    (fun m => (mkStats (size (user_states m)) (length (available_users m))
                 (size (active_pairs m) / 2) (size (active_pairs m) / 2), m)));
    [done| |done].
  by intros b [].
Qed.

(** X3.  The [cleanup_inactive] tool of the server, when it answers,
    reports that no user was cleaned, and the manager is as before. *)
Theorem cleanup_inactive_reports_none timeout t m r m' :
  lock m = false ->
  cleanup_inactive timeout t m = Some (r, m') ->
  m' = m /\
  r = cleanup_report timeout 0 (Z.of_nat (size (user_states m)))
        (Z.of_nat (size (active_pairs m) / 2)).
Proof.
  intros Hl. unfold cleanup_inactive, bind, ret. rewrite get_system_stats_eq by done.
  destruct (cleanup_inactive_users timeout t m) as [[[] m1]|] eqn:E; [|done].
  apply cleanup_returns in E as [_ ->]. rewrite get_system_stats_eq by done.
  intros [= <- <-]. split; [done|]. cbn [stat_active_users stat_active_pairs].
  by rewrite Z.sub_diag.
Qed.

(** ** Ending a chat *)

(** X4.  Whoever calls [end_chat] is idle afterwards, neither waiting nor
    paired, and the call returns the partner the user had, if any. *)
Theorem end_chat_leaves_idle u m :
  Inv m ->
  exists m',
    end_chat u m = Some (active_pairs m !! u, m') /\
    ~ waiting u m' /\ ~ paired u m'.
Proof.
  intros HI. rewrite end_chat_eq by by apply Inv_lock.
  destruct (Inv_end_chat_body u m HI) as [HI' Hp'].
  pose proof HI as (_ & _ & Hq & Hx & _ & _).
  destruct (end_chat_body_cases u m HI) as [[Hp E]|(p & Hp & E)]; rewrite E in *;
    cbn [snd] in *; rewrite Hp; eexists; (split; [reflexivity|]).
  - split; [|by intros [? ?]; congruence].
    pose proof (queue_remove_set u m) as Hset.
    destruct HI' as (_ & _ & Hq' & _). intros [Hw|Hw]; [apply Hq' in Hw|]; set_solver.
  - split; [|by intros [? ?]; congruence].
    assert (Hn : u ∉ available_set m) by (intros Hin; apply Hx in Hin; congruence).
    intros [Hw|Hw]; cbn in Hw; [by apply Hn, Hq|done].
Qed.

Lemma cleared_profile (sts : gmap str UserState) x st :
  alter (set_partner None None) x sts !! x = Some st ->
  partner_id st = None /\ partner_session_id st = None.
Proof.
  rewrite lookup_alter_eq. destruct (sts !! x); cbn; [|done]. by intros [= <-].
Qed.

Lemma bye_eq u m :
  lock m = false ->
  _handle_bye_command u m
  = Some (if truthy (end_chat_body u m).1 then chat_ended
          else lit "You're not currently in a chat.",
          (end_chat_body u m).2).
Proof.
  intros Hl. unfold _handle_bye_command, bind, ret. rewrite end_chat_eq by done.
  destruct (end_chat_body u m) as [r m1]. cbn [fst snd]. by destruct (truthy r).
Qed.

(** X5.  [#bye] from a paired user ends the chat for both: the pair is
    cleared in both directions, partner and epoch are wiped from both
    profiles, the notice that the partner left is appended to the
    partner's notifications and to nobody else's, and nobody is put in the
    waiting queue. *)
Theorem bye_unpairs_both u p m :
  lock m = false -> active_pairs m !! u = Some p -> p <> [] ->
  exists m',
    _handle_bye_command u m = Some (chat_ended, m') /\
    active_pairs m' !! u = None /\ active_pairs m' !! p = None /\
    (forall st, user_states m' !! u = Some st ->
                partner_id st = None /\ partner_session_id st = None) /\
    (forall st, user_states m' !! p = Some st ->
                partner_id st = None /\ partner_session_id st = None) /\
    pending_notifications m' !! p
    = Some (default [] (pending_notifications m !! p) ++ [left_note]) /\
    (forall x, x <> p -> pending_notifications m' !! x = pending_notifications m !! x) /\
    available_users m' = available_users m /\ available_set m' = available_set m.
Proof.
  intros Hl Hp Hne. rewrite bye_eq by done. unfold end_chat_body. rewrite Hp.
  destruct p as [|c p]; [done|]. cbn [fst snd truthy].
  eexists. split; [reflexivity|].
  cbn [active_pairs user_states pending_notifications available_users available_set
       push_notification set_pending_notifications set_user_states set_active_pairs].
  split_and!; try done.
  - apply lookup_delete_None. right. apply lookup_delete_None. by left.
  - apply lookup_delete_None. by left.
  - intros st Hst. destruct (decide (c :: p = u)) as [Heq|Hpu].
    + subst u. by apply cleared_profile in Hst.
    + rewrite lookup_alter_ne in Hst by done. by apply cleared_profile in Hst.
  - intros st Hst. by apply cleared_profile in Hst.
  - by rewrite lookup_insert_eq.
  - intros x Hx. by rewrite lookup_insert_ne.
Qed.

(** ** Profiles and the pair map *)

Lemma queue_remove_strict d m : strict_mode (_queue_remove d m) = strict_mode m.
Proof.
  unfold _queue_remove. destruct (decide _); [|done].
  destruct (available_users m); [done|]. by destruct (decide _).
Qed.

Lemma queue_add_strict d m : strict_mode (_queue_add d m) = strict_mode m.
Proof. unfold _queue_add. by destruct (decide _). Qed.

Lemma Profiles_Sessions m : Profiles m -> Sessions m.
Proof. by intros [? _]. Qed.

Lemma Profiles_init : Profiles init.
Proof.
  split; [apply Sessions_init|]. split_and!; [done| |].
  - intros a H. cbn in H. by rewrite lookup_empty in H.
  - intros u st H. cbn in H. by rewrite lookup_empty in H.
Qed.

Lemma Profiles_touch u nick t m :
  Profiles m -> Profiles (touch u nick t m) /\ is_Some (user_states (touch u nick t m) !! u).
Proof.
  intros (HS & Hst & Hns & Hmi). destruct (Sessions_touch u nick t m HS) as [HS' Hsu].
  split; [|done]. split; [done|]. split_and!; [done|done|].
  intros x st. cbn. destruct (decide (u = x)) as [->|Hne].
  - rewrite lookup_insert_eq. intros [= <-]. unfold touched.
    destruct (user_states m !! x) as [sx|] eqn:Hx.
    { destruct (Hmi x sx Hx) as (? & ? & ? & ?). cbn. done. }
    assert (Hp : active_pairs m !! x = None).
    { destruct (active_pairs m !! x) as [b|] eqn:Hb; [|done].
      destruct HS as (_ & _ & _ & Hep & _).
      destruct (Hep x b Hb) as (sa & _ & Ha & _). congruence. }
    cbn. rewrite Hp. split_and!; try done.
    destruct nick as [[|c n]|]; cbn; done.
  - rewrite lookup_insert_ne by done. apply Hmi.
Qed.

Lemma mirrored_set_partner (sts : gmap str UserState) x st o sid :
  sts !! x = Some st -> user_id st = x -> nickname st <> [] ->
  exists st', alter (set_partner o sid) x sts !! x = Some st' /\
    user_id st' = x /\ nickname st' = nickname st /\
    partner_id st' = o /\ partner_session_id st' = sid.
Proof.
  intros Hx Hid Hn. rewrite lookup_alter_eq, Hx. eexists. split; [done|]. done.
Qed.

Lemma Profiles_find u sid m :
  Profiles m -> u <> [] -> active_pairs m !! u = None -> is_Some (user_states m !! u) ->
  Profiles (find_partner_body u sid m).2 /\
  is_Some (user_states (find_partner_body u sid m).2 !! u).
Proof.
  intros (HS & Hst & Hns & Hmi) Hu Hpu Hsu.
  destruct (Sessions_find u sid m HS Hu Hpu Hsu) as [HS' Hsu'].
  split; [|done]. split; [done|].
  pose proof (Sessions_Inv m HS) as HI.
  destruct (queue_remove_frame u m) as [_ Hap].
  destruct (queue_remove_others u m) as (Hus & _ & _).
  destruct (find_partner_body_cases u sid m HI) as [E|(h & q & note & Hh & Hhu & E)];
    rewrite E in *; cbn [snd] in *.
  - destruct (queue_add_frame u (_queue_remove u m)) as (Hap' & Hus' & _ & _).
    unfold no_self_pairs, mirrored.
    rewrite queue_add_strict, queue_remove_strict, Hap', Hus', Hap, Hus. done.
  - assert (Hph : active_pairs m !! h = None).
    { destruct HI as (_ & _ & _ & Hx & _). by apply Hx. }
    split_and!.
    + cbn. by rewrite queue_remove_strict.
    + intros a. cbn. destruct (decide (a = h)) as [->|Hah].
      * rewrite lookup_insert_eq. congruence.
      * rewrite lookup_insert_ne by done. destruct (decide (a = u)) as [->|Hau].
        { rewrite lookup_insert_eq. congruence. }
        rewrite lookup_insert_ne by done. apply Hns.
    + intros x st. cbn. destruct (decide (x = h)) as [->|Hxh].
      * rewrite lookup_alter_eq, lookup_alter_ne, lookup_insert_eq by done.
        destruct (user_states m !! h) as [sh|] eqn:Hsh; [|done].
        destruct (Hmi h sh Hsh) as (? & ? & _). cbn. intros [= <-]. cbn.
        split_and!; (done || discriminate).
      * rewrite lookup_alter_ne, lookup_insert_ne by done.
        destruct (decide (x = u)) as [->|Hxu].
        { rewrite lookup_alter_eq, lookup_insert_eq.
          destruct (user_states m !! u) as [su|] eqn:Hsu0; [|done].
          destruct (Hmi u su Hsu0) as (? & ? & _). cbn. intros [= <-]. cbn.
          split_and!; (done || discriminate). }
        rewrite lookup_alter_ne, lookup_insert_ne by done. apply Hmi.
Qed.

Lemma Profiles_end u m :
  Profiles m -> is_Some (user_states m !! u) ->
  Profiles (end_chat_body u m).2 /\ is_Some (user_states (end_chat_body u m).2 !! u).
Proof.
  intros (HS & Hst & Hns & Hmi) Hsu.
  destruct (Sessions_end u m HS Hsu) as [HS' Hsu'].
  split; [|done]. split; [done|].
  pose proof (Sessions_Inv m HS) as HI.
  destruct (end_chat_body_cases u m HI) as [[Hpu E]|(p & Hpu & E)];
    rewrite E in *; cbn [snd] in *.
  - destruct (queue_remove_frame u m) as [_ Hap].
    destruct (queue_remove_others u m) as (Hus & _ & _).
    unfold no_self_pairs, mirrored. rewrite queue_remove_strict, Hap, Hus. done.
  - split_and!; [done| |].
    + intros a. cbn. intros Ha. apply lookup_delete_Some in Ha as [_ Ha].
      apply lookup_delete_Some in Ha as [_ Ha]. by apply Hns in Ha.
    + intros x st. cbn. destruct (decide (x = p)) as [->|Hxp].
      * rewrite lookup_alter_eq, lookup_delete_eq.
        destruct (decide (p = u)) as [->|Hpu'].
        { rewrite lookup_alter_eq. destruct (user_states m !! u) as [su|] eqn:Hsu0; [|done].
          destruct (Hmi u su Hsu0) as (? & ? & _). cbn. intros [= <-]. done. }
        rewrite lookup_alter_ne by done.
        destruct (user_states m !! p) as [sp|] eqn:Hsp; [|done].
        destruct (Hmi p sp Hsp) as (? & ? & _). cbn. intros [= <-]. done.
      * rewrite lookup_alter_ne, lookup_delete_ne by done.
        destruct (decide (x = u)) as [->|Hxu].
        { rewrite lookup_alter_eq, lookup_delete_eq.
          destruct (user_states m !! u) as [su|] eqn:Hsu0; [|done].
          destruct (Hmi u su Hsu0) as (? & ? & _). cbn. intros [= <-]. done. }
        rewrite lookup_alter_ne, lookup_delete_ne by done. apply Hmi.
Qed.

Lemma routing_body_strict u message m :
  strict_mode (_handle_message_routing_body u message m).2 = strict_mode m.
Proof.
  unfold _handle_message_routing_body, get_partner.
  destruct (last _); [done|].
  cbn [active_pairs set_pending_notifications user_states].
  destruct (active_pairs m !! u) as [[|c p]|]; [done| |done].
  destruct (user_states m !! u); [|done].
  destruct (user_states m !! (c :: p)); [|done]. by destruct (decide _).
Qed.

Lemma Sessions_routing u message m :
  Sessions m -> Sessions (_handle_message_routing_body u message m).2.
Proof.
  intros H0. destruct (routing_body_frame u message m) as (Hap & Hset & Hus & Hcap).
  eapply Sessions_frame; [exact H0| |done|done|by apply keeps_epochs_refl|].
  - by apply Inv_routing_body, Sessions_Inv.
  - by apply Hcap, Sessions_capped.
Qed.

Lemma Sessions_flip u m :
  Sessions m -> Sessions (set_user_states (alter flip_masking u (user_states m)) m).
Proof.
  intros H0.
  eapply Sessions_frame; [exact H0| |done|done| |exact (Sessions_capped _ H0)].
  - eapply Inv_core; [by apply Sessions_Inv|done..].
  - by apply (keeps_epochs_alter flip_masking u).
Qed.

Lemma Sessions_notes x m : Sessions m -> Sessions (set_pending_notifications x m).
Proof.
  intros H0.
  eapply Sessions_frame; [exact H0| |done|done|by apply keeps_epochs_refl|
                          exact (Sessions_capped _ H0)].
  eapply Inv_core; [by apply Sessions_Inv|done..].
Qed.

Lemma Sessions_messages u m :
  Sessions m -> Sessions (set_pending_messages (delete u (pending_messages m)) m).
Proof.
  intros H0.
  eapply Sessions_frame; [exact H0| |done|done|by apply keeps_epochs_refl|
                          by apply capped_delete, Sessions_capped].
  eapply Inv_core; [by apply Sessions_Inv|done..].
Qed.

(** A step that leaves pairs, profiles and mode alone. *)
Lemma Profiles_frame m m' :
  Profiles m -> Sessions m' -> strict_mode m' = strict_mode m ->
  active_pairs m' = active_pairs m -> user_states m' = user_states m -> Profiles m'.
Proof.
  intros (_ & Hst & Hns & Hmi) HS' Hst' Hap Hus. split; [done|].
  unfold no_self_pairs, mirrored. rewrite Hst', Hap, Hus. done.
Qed.

Lemma Profiles_process_message u message nick e m r m' :
  Profiles m -> u <> [] -> process_message u message nick e m = Some (r, m') ->
  Profiles m'.
Proof.
  intros HS Hu H.
  cut (Profiles m' /\ is_Some (user_states m' !! u)); [by intros [? _]|].
  revert HS H.
  apply (serving_process_message u Profiles
           (fun m => Profiles m /\ is_Some (user_states m !! u))).
  - intros m0 H0. by apply Inv_lock, Sessions_Inv, Profiles_Sessions.
  - by intros m0 [? _].
  - intros. by apply Profiles_touch.
  - intros m0 [H0 _]. by apply untruthy_partner, Sessions_Inv, Profiles_Sessions.
  - intros sid m0 [H0 Hs] Hp. by apply Profiles_find.
  - intros m0 [H0 Hs]. split; [by apply Profiles_end|].
    by apply Inv_end_chat_body, Sessions_Inv, Profiles_Sessions.
  - intros msg m0 [H0 Hs].
    destruct (routing_body_frame u msg m0) as (Hap & Hset & Hus & Hcap).
    split; [|by rewrite Hus].
    eapply Profiles_frame; [exact H0| | |done|done].
    + by apply Sessions_routing, Profiles_Sessions.
    + apply routing_body_strict.
  - intros m0 [H0 Hs]. split; [|cbn; by apply lookup_alter_is_Some].
    pose proof H0 as (HS & Hst & Hns & Hmi).
    split; [by apply Sessions_flip|]. split_and!; [done|done|].
    intros x st. cbn. destruct (decide (x = u)) as [->|Hxu].
    + rewrite lookup_alter_eq. destruct (user_states m0 !! u) as [su|] eqn:Hsu; [|done].
      destruct (Hmi u su Hsu) as (? & ? & ? & ?). cbn. intros [= <-]. done.
    + rewrite lookup_alter_ne by done. apply Hmi.
  - intros m0 [H0 Hs]. split; [|done].
    eapply Profiles_frame; [exact H0| |done..]. by apply Sessions_notes, Profiles_Sessions.
  - intros m0 [H0 Hs]. split; [|done].
    eapply Profiles_frame; [exact H0| |done..]. by apply Sessions_messages, Profiles_Sessions.
Qed.

Lemma served_Profiles m : served m -> Profiles m.
Proof.
  unfold served. intros H.
  eapply (rtc_ind_r (fun m => Profiles m) init); [apply Profiles_init| |exact H].
  intros y z _ Hyz HS.
  destruct Hyz as [u message nick e m0 r m0' Hu Hpm|timeout t m0 m0' Hc].
  - by eapply Profiles_process_message.
  - by apply cleanup_returns in Hc as [_ ->].
Qed.

Lemma served_reachable m : served m -> reachable m.
Proof.
  unfold served, reachable. intros H.
  eapply (rtc_ind_r (fun m => rtc step init m) init); [apply rtc_refl| |exact H].
  intros y z _ Hyz IH. eapply rtc_r; [exact IH|].
  destruct Hyz as [u message nick e m0 r m0' Hu Hpm|timeout t m0 m0' Hc].
  - by eapply step_message.
  - by eapply step_cleanup.
Qed.

(** X6.  The two records of a pairing agree.  Whatever the manager has
    served, a profile is filed under its own identifier, carries a
    nickname that is not empty, names as partner exactly the user the pair
    map gives, and has an epoch exactly when the user is paired; every
    paired user has a profile, and nobody is paired with themselves. *)
Theorem profiles_mirror_pairs m u :
  served m ->
  (forall st, user_states m !! u = Some st ->
     user_id st = u /\ nickname st <> [] /\ partner_id st = active_pairs m !! u /\
     (partner_session_id st = None <-> active_pairs m !! u = None)) /\
  (is_Some (active_pairs m !! u) -> is_Some (user_states m !! u)) /\
  active_pairs m !! u <> Some u.
Proof.
  intros H. apply served_Profiles in H as (HS & _ & Hns & Hmi).
  split_and!; [by apply Hmi| |by apply Hns].
  intros [p Hp]. destruct HS as (_ & _ & _ & Hep & _).
  destruct (Hep u p Hp) as (su & _ & Hu & _). by eexists.
Qed.

(** ** The statistics *)



(** ** The handlers *)


Lemma is_command_false (x : str) :
  is_command x = false ->
  startswith (lower (strip x)) (lit "#meet") = false /\
  startswith (lower (strip x)) (lit "#bye") = false /\
  startswith (lower (strip x)) (lit "#again") = false /\
  startswith (lower (strip x)) (lit "#hide") = false /\
  startswith (lower (strip x)) (lit "#who") = false /\
  startswith (lower (strip x)) (lit "#m") = false /\
  startswith (lower (strip x)) (lit "#r") = false.
Proof.
  unfold is_command. cbn [existsb]. intros H.
  repeat (apply orb_false_elim in H as [? H]). done.
Qed.

(** X9.  What [is_command] does not take for a command is never relayed.
    The manager stays in strict mode whatever it serves, so such a message
    is answered with the tip, and all it changes is the sender's profile,
    created or stamped with the time of the call. *)
Theorem non_command_gets_tip m u message nick e :
  served m ->
  is_command (received u message m) = false ->
  process_message u message nick e m = Some (strict_tip, touch u nick (now e) m).
Proof.
  intros H Hc. apply served_Profiles in H as (HS & Hst & _).
  assert (Hl : lock m = false) by by apply Inv_lock, Sessions_Inv.
  apply is_command_false in Hc as (H1 & H2 & H3 & H4 & H5 & H6 & H7).
  unfold process_message, bind. rewrite get_or_create_eq by done.
  rewrite touched_masking. unfold received in *.
  rewrite H1, H2, H3, H4, H5, H6, H7. unfold gets, touch. cbn [strict_mode set_user_states].
  by rewrite Hst.
Qed.




Lemma set_queue_same m : set_queue (available_users m) (available_set m) m = m.
Proof. by destruct m. Qed.








Lemma hide_eq u t m :
  lock m = false ->
  _handle_hide_command u t m
  = Some (masking_reply (negb (masking_of u m)),
          set_user_states
            (alter flip_masking u (<[u := touched u None t m]> (user_states m))) m).
Proof.
  intros Hl. unfold _handle_hide_command, toggle_phone_masking, bind, modify, ret.
  rewrite get_or_create_eq by done. rewrite touched_masking. reflexivity.
Qed.

Lemma hide_flips u t m :
  masking_of u (set_user_states
                  (alter flip_masking u (<[u := touched u None t m]> (user_states m))) m)
  = negb (masking_of u m).
Proof.
  unfold masking_of at 1. cbn [user_states set_user_states].
  rewrite lookup_alter_eq, lookup_insert_eq. cbn [fmap option_fmap option_map].
  unfold flip_masking. cbn [phone_masking_enabled]. by rewrite touched_masking.
Qed.

(** X14.  [#hide] is a switch.  The first [#hide] inverts the sender's
    masking preference (for a user without profile, who counts as masked,
    it creates one with masking off) and says so; a second one restores
    the preference. *)
Theorem hide_toggles m u t1 t2 :
  lock m = false ->
  exists m1 m2,
    _handle_hide_command u t1 m = Some (masking_reply (negb (masking_of u m)), m1) /\
    masking_of u m1 = negb (masking_of u m) /\
    _handle_hide_command u t2 m1 = Some (masking_reply (masking_of u m), m2) /\
    masking_of u m2 = masking_of u m.
Proof.
  intros Hl.
  set (m1 := set_user_states
               (alter flip_masking u (<[u := touched u None t1 m]> (user_states m))) m).
  set (m2 := set_user_states
               (alter flip_masking u (<[u := touched u None t2 m1]> (user_states m1))) m1).
  assert (H1 : masking_of u m1 = negb (masking_of u m)) by apply hide_flips.
  assert (H2 : masking_of u m2 = negb (masking_of u m1)) by apply hide_flips.
  assert (Hl1 : lock m1 = false) by exact Hl.
  exists m1, m2. split; [by apply hide_eq|]. split; [exact H1|].
  rewrite H2, H1, negb_involutive. split; [|reflexivity].
  rewrite (hide_eq u t2 m1 Hl1), H1, negb_involutive. reflexivity.
Qed.

Lemma inbox_eq u m :
  _handle_inbox_command u m
  = Some (match default [] (pending_notifications m !! u),
                default [] (pending_messages m !! u) with
          | [], [] => inbox_empty
          | notifications, messages =>
              join newline (map info_line (last_n 3 notifications)
                            ++ map partner_line (last_n 5 messages))
          end,
          set_pending_messages (delete u (pending_messages m))
            (set_pending_notifications (delete u (pending_notifications m)) m)).
Proof.
  unfold _handle_inbox_command, bind, gets, modify, ret.
  cbn [pending_messages set_pending_notifications].
  destruct (default [] (pending_notifications m !! u)),
           (default [] (pending_messages m !! u)); reflexivity.
Qed.

(** X15.  A pull empties the inbox.  [_handle_inbox_command] removes all
    the notifications and all the messages queued for the user, those it
    does not show included, and touches nobody else's; a second pull right
    after it finds the inbox empty. *)
Theorem inbox_pull_drains m u :
  exists r m',
    _handle_inbox_command u m = Some (r, m') /\
    pending_notifications m' !! u = None /\ pending_messages m' !! u = None /\
    (forall v, v <> u ->
       pending_notifications m' !! v = pending_notifications m !! v /\
       pending_messages m' !! v = pending_messages m !! v) /\
    _handle_inbox_command u m' = Some (inbox_empty, m').
Proof.
  eexists _, _. split; [apply inbox_eq|].
  cbn [pending_notifications pending_messages set_pending_messages
       set_pending_notifications].
  rewrite !lookup_delete_eq. split_and!; try done.
  - intros v Hv. by rewrite !lookup_delete_ne.
  - rewrite inbox_eq.
    cbn [pending_notifications pending_messages set_pending_messages
         set_pending_notifications].
    rewrite !lookup_delete_eq. cbn [default].
    rewrite !(delete_id (delete _ _)) by apply lookup_delete_eq. reflexivity.
Qed.




(** ** Profiles last *)

Lemma named_same v n i m m' : user_states m' = user_states m -> named v n i m -> named v n i m'.
Proof. intros H (st & Hst & ?). exists st. by rewrite H. Qed.

Lemma named_alter f x v n i m m' :
  (forall s, nickname (f s) = nickname s /\ user_id (f s) = user_id s) ->
  user_states m' = alter f x (user_states m) -> named v n i m -> named v n i m'.
Proof.
  intros Hf H (st & Hst & Hn & Hi). unfold named. rewrite H.
  destruct (decide (x = v)) as [->|Hne].
  - exists (f st). rewrite lookup_alter_eq, Hst. destruct (Hf st) as [-> ->]. done.
  - exists st. by rewrite lookup_alter_ne.
Qed.

Lemma named_find u sid v n i m :
  Inv m -> named v n i m -> named v n i (find_partner_body u sid m).2.
Proof.
  intros HI Hn. destruct (queue_remove_others u m) as (Hus & _ & _).
  destruct (find_partner_body_cases u sid m HI) as [E|(h & q & note & Hh & Hhu & E)];
    rewrite E; cbn [snd].
  - destruct (queue_add_frame u (_queue_remove u m)) as (_ & Hus' & _).
    eapply named_same; [|exact Hn]. by rewrite Hus', Hus.
  - eapply (named_alter (set_partner (Some u) (Some sid)) h v n i
              (set_user_states
                 (alter (set_partner (Some h) (Some sid)) u (user_states m)) m));
      [done|reflexivity|].
    by eapply (named_alter (set_partner (Some h) (Some sid)) u); [| |exact Hn].
Qed.

Lemma named_end u v n i m :
  Inv m -> named v n i m -> named v n i (end_chat_body u m).2.
Proof.
  intros HI Hn. destruct (queue_remove_others u m) as (Hus & _ & _).
  destruct (end_chat_body_cases u m HI) as [[Hpu E]|(p & Hpu & E)]; rewrite E; cbn [snd].
  - by eapply named_same.
  - eapply (named_alter (set_partner None None) p v n i
              (set_user_states (alter (set_partner None None) u (user_states m)) m));
      [done|reflexivity|].
    by eapply (named_alter (set_partner None None) u); [| |exact Hn].
Qed.

(** X17.  Profiles last and nicknames are fixed at first contact.  Serving
    a message removes no profile and changes neither the nickname nor the
    identifier of any: the nickname passed with a later message of the
    same user is ignored. *)
Theorem nickname_is_permanent m u message nick e r m' v st :
  served m -> u <> [] -> user_states m !! v = Some st ->
  process_message u message nick e m = Some (r, m') ->
  exists st', user_states m' !! v = Some st' /\
              nickname st' = nickname st /\ user_id st' = user_id st.
Proof.
  intros H Hu Hst Hrun. apply served_Sessions, Sessions_Inv in H.
  cut (Inv m' /\ named v (nickname st) (user_id st) m'); [by intros [_ ?]|].
  assert (H0 : Inv m /\ named v (nickname st) (user_id st) m) by (split; [done|by exists st]).
  revert H0 Hrun.
  apply (serving_process_message u
           (fun m => Inv m /\ named v (nickname st) (user_id st) m)
           (fun m => Inv m /\ named v (nickname st) (user_id st) m)).
  - intros m0 [? _]. by apply Inv_lock.
  - done.
  - intros nick0 t m0 [HI (s0 & Hs0 & Hn0 & Hi0)]. split; [by eapply Inv_core|].
    unfold named, touch. cbn. destruct (decide (u = v)) as [->|Hne].
    + rewrite lookup_insert_eq. eexists. split; [done|]. unfold touched. by rewrite Hs0.
    + rewrite lookup_insert_ne by done. by exists s0.
  - intros m0 [HI _]. by apply untruthy_partner.
  - intros sid m0 [HI Hn] Hp. split; [by apply Inv_find_partner_body|by apply named_find].
  - intros m0 [HI Hn]. split; [|by apply Inv_end_chat_body].
    split; [by apply Inv_end_chat_body|by apply named_end].
  - intros msg m0 [HI Hn]. split; [by apply Inv_routing_body|].
    destruct (routing_body_frame u msg m0) as (_ & _ & Hus & _). by eapply named_same.
  - intros m0 [HI Hn]. split; [by eapply Inv_core|].
    by eapply (named_alter flip_masking u); [| |exact Hn].
  - intros m0 [HI Hn]. split; [by eapply Inv_core|by eapply named_same].
  - intros m0 [HI Hn]. split; [by eapply Inv_core|by eapply named_same].
Qed.

(** ** The waiting queue, once more *)

Lemma without_snoc u (q : list str) : u ∉ q -> without u (q ++ [u]) = q.
Proof.
  intros Hu. unfold without. rewrite filter_app.
  pose proof (without_notin u q Hu) as Hw. unfold without in Hw. rewrite Hw.
  rewrite filter_cons_False by (by intros ?). rewrite filter_nil. apply app_nil_r.
Qed.

(** X18.  [_queue_add] and [_queue_remove] undo each other: when the deque
    and the set hold the same users and [u] is not among them, adding [u]
    and removing it again gives back the manager, deque order included,
    whether the removal takes the fast path or rebuilds the deque. *)
Theorem queue_add_remove_round_trip m u :
  (forall x, x ∈ available_set m <-> x ∈ available_users m) ->
  (u ∉ available_set m) ->
  _queue_remove u (_queue_add u m) = m.
Proof.
  intros Hq Hu. assert (Hu' : u ∉ available_users m) by by rewrite <- Hq.
  unfold _queue_add. rewrite decide_False by done. unfold _queue_remove.
  cbn [available_set available_users set_queue]. rewrite decide_True by set_solver.
  assert (Hset : ({[u]} ∪ available_set m) ∖ {[u]} = available_set m)
    by (apply set_eq; set_solver).
  rewrite Hset.
  transitivity (set_queue (available_users m) (available_set m) m); [|apply set_queue_same].
  destruct (available_users m) as [|h q] eqn:E; cbn [app].
  - by rewrite decide_True.
  - rewrite decide_False by set_solver.
    change (h :: q ++ [u]) with ((h :: q) ++ [u]).
    rewrite without_snoc by done. reflexivity.
Qed.

(** ** The bearer token *)

Lemma lstrip_spaces (ws x : str) :
  Forall (fun c => is_space c = true) ws -> lstrip (ws ++ x) = lstrip x.
Proof. induction 1 as [|c ws Hc _ IH]; [done|]. cbn. by rewrite Hc. Qed.

Lemma rstrip_spaces (x ws : str) :
  Forall (fun c => is_space c = true) ws -> rstrip (x ++ ws) = rstrip x.
Proof.
  intros H. unfold rstrip. rewrite reverse_app, lstrip_spaces; [done|].
  by apply Forall_reverse.
Qed.

Lemma lstrip_app (t w : str) :
  lstrip (t ++ w) = lstrip t ++ w \/ (lstrip t = [] /\ lstrip (t ++ w) = lstrip w).
Proof.
  induction t as [|c t IH]; [by right|]. cbn. destruct (is_space c); [done|by left].
Qed.

Lemma strip_padding (ws t ws' : str) :
  Forall (fun c => is_space c = true) ws -> Forall (fun c => is_space c = true) ws' ->
  strip (ws ++ t ++ ws') = strip t.
Proof.
  intros Hw Hw'. unfold strip. rewrite lstrip_spaces by done.
  destruct (lstrip_app t ws') as [->|[-> ->]]; [by apply rstrip_spaces|].
  rewrite <- (app_nil_r ws'), lstrip_spaces by done. done.
Qed.

(** X19.  The token is compared after stripping.  [load_access_token]
    accepts the configured token with any white space put before or after
    it, and hands back the token as it was presented, padding included. *)
Theorem token_accepted_up_to_padding (ws t ws' : str) :
  Forall (fun c => is_space c = true) ws -> Forall (fun c => is_space c = true) ws' ->
  t <> [] ->
  load_access_token (Some t) (ws ++ t ++ ws')
  = Some (mkAccessToken (ws ++ t ++ ws') (lit "puch-random-connect") [lit "*"] None).
Proof.
  intros Hw Hw' Ht. unfold load_access_token. cbn [default].
  rewrite strip_padding by done. rewrite bool_decide_eq_true_2 by done.
  destruct (ws ++ t ++ ws') as [|c s] eqn:E; [|done].
  apply app_eq_nil in E as [_ E]. by apply app_eq_nil in E as [E _].
Qed.

(** ** More on the redaction *)

Lemma span_sub_le items : forall s pw,
  (span Digit (sub_aux items pw 0 s) <= span Digit s)%nat.
Proof.
  induction s as [|c s IH]; intros pw; [done|]. cbn [sub_aux].
  assert (Hcopy : (span Digit (c :: sub_aux items (is_word c) 0 s)
                   <= span Digit (c :: s))%nat).
  { cbn [span]. destruct (in_cls Digit c); [|done]. specialize (IH (is_word c)). lia. }
  destruct (match_here items pw (c :: s)) as [[|n]|]; [done| |done].
  rewrite hidden_eq. cbn. lia.
Qed.

Lemma has_digit_run_hidden n s :
  (1 <= n)%nat -> has_digit_run n (hidden ++ s) = has_digit_run n s.
Proof.
  intros Hn. rewrite hidden_eq. cbn [app has_digit_run span in_cls].
  assert (E : (n <=? 0)%nat = false) by by apply Nat.leb_gt.
  cbn. by rewrite E.
Qed.

Lemma has_digit_run_cons n c s :
  has_digit_run n (c :: s) = (n <=? span Digit (c :: s))%nat || has_digit_run n s.
Proof. done. Qed.

(** A substitution makes no run of digits longer. *)
Lemma sub_no_new_runs items n :
  (1 <= n)%nat -> forall s pw skip,
  has_digit_run n s = false -> has_digit_run n (sub_aux items pw skip s) = false.
Proof.
  intros Hn. induction s as [|c s IH]; intros pw skip H; [done|].
  rewrite has_digit_run_cons in H. apply orb_false_elim in H as [Hc Hs].
  cbn [sub_aux]. destruct skip as [|k]; [|by apply IH].
  assert (Hcopy : has_digit_run n (c :: sub_aux items (is_word c) 0 s) = false).
  { rewrite has_digit_run_cons, (IH _ _ Hs), orb_false_r.
    apply Nat.leb_gt. apply Nat.leb_gt in Hc.
    pose proof (span_sub_le items s (is_word c)). cbn [span] in *.
    destruct (in_cls Digit c); lia. }
  destruct (match_here items pw (c :: s)) as [[|j]|]; [done| |done].
  rewrite has_digit_run_hidden by done. by apply IH.
Qed.

Lemma sub_all_no_new_runs n :
  (1 <= n)%nat -> forall ps s,
  has_digit_run n s = false -> has_digit_run n (sub_all ps s) = false.
Proof.
  intros Hn. induction ps as [|p ps IH]; intros s H; [done|].
  cbn. apply IH. by apply sub_no_new_runs.
Qed.

Lemma ten_digits_match pw s :
  (10 <= span Digit s)%nat ->
  match_here [at_least Digit 10] pw s = Some (span Digit s).
Proof.
  intros H. unfold at_least. cbn [match_here greedy]. rewrite backtrack_eq.
  assert (E : (span Digit s <? 10)%nat = false) by by apply Nat.ltb_ge.
  rewrite E. cbn. by rewrite Nat.add_0_r.
Qed.

(** After [\d{10,}] is replaced no ten digits stand in a row. *)
Lemma sub_ten_digits : forall s pw skip,
  has_digit_run 10 (sub_aux [at_least Digit 10] pw skip s) = false.
Proof.
  induction s as [|c s IH]; intros pw skip; [done|].
  cbn [sub_aux]. destruct skip as [|k]; [|by apply IH].
  assert (Hcopy : (span Digit (c :: s) < 10)%nat ->
            has_digit_run 10 (c :: sub_aux [at_least Digit 10] (is_word c) 0 s) = false).
  { intros Hlt. rewrite has_digit_run_cons, IH, orb_false_r. apply Nat.leb_gt.
    pose proof (span_sub_le [at_least Digit 10] s (is_word c)). cbn [span] in *.
    destruct (in_cls Digit c); lia. }
  destruct (le_lt_dec 10 (span Digit (c :: s))) as [Hge|Hlt].
  - rewrite ten_digits_match by done.
    destruct (span Digit (c :: s)) as [|j]; [lia|].
    rewrite has_digit_run_hidden by lia. apply IH.
  - destruct (match_here _ pw (c :: s)) as [[|j]|]; [by apply Hcopy| |by apply Hcopy].
    rewrite has_digit_run_hidden by lia. apply IH.
Qed.

Lemma span_app_ge (run post : str) :
  Forall (fun c => is_digit c = true) run -> (length run <= span Digit (run ++ post))%nat.
Proof.
  induction 1 as [|c run Hc _ IH]; cbn [app length span in_cls]; [lia|].
  rewrite Hc. lia.
Qed.

Lemma has_digit_run_split n (pre run post : str) :
  has_digit_run n (pre ++ run ++ post) = false ->
  Forall (fun c => is_digit c = true) run -> (length run < n)%nat.
Proof.
  intros H Hrun. induction pre as [|a pre IH].
  - cbn [app] in H. pose proof (span_app_ge run post Hrun).
    destruct (run ++ post) as [|c t] eqn:E.
    + cbn in H. apply orb_false_elim in H as [H _]. apply Nat.leb_gt in H. cbn in *. lia.
    + rewrite has_digit_run_cons in H. apply orb_false_elim in H as [H _].
      apply Nat.leb_gt in H. lia.
  - apply IH. change ((a :: pre) ++ run ++ post) with (a :: (pre ++ run ++ post)) in H.
    rewrite has_digit_run_cons in H. by apply orb_false_elim in H as [_ H].
Qed.

Lemma mask_no_ten_run s : has_digit_run 10 (mask_phone_numbers s) = false.
Proof.
  unfold mask_phone_numbers. destruct s as [|c s]; [done|].
  apply sub_no_new_runs; [lia|]. unfold phone_patterns.
  change (sub_all (?a :: ?b :: ?rest) ?t) with (sub_all rest (sub b (sub a t))).
  apply sub_all_no_new_runs; [lia|]. apply sub_ten_digits.
Qed.

(** X20.  No ten digits in a row survive the redaction, whatever stands
    around them: every run of decimal digits in the redacted text is
    shorter than ten. *)
Theorem mask_leaves_no_ten_digits s (pre run post : str) :
  mask_phone_numbers s = pre ++ run ++ post ->
  Forall (fun c => is_digit c = true) run ->
  (length run < 10)%nat.
Proof.
  intros E. apply (has_digit_run_split 10 pre run post). rewrite <- E. apply mask_no_ten_run.
Qed.

Lemma count_digits_app (a b : str) :
  count_digits (a ++ b) = (count_digits a + count_digits b)%nat.
Proof. induction a as [|c a IH]; [done|]. cbn. rewrite IH. lia. Qed.

Lemma count_digits_all (a : str) :
  Forall (fun c => in_cls Digit c = true) a -> count_digits a = length a.
Proof.
  induction 1 as [|c a Hc _ IH]; [done|]. cbn in *. by rewrite Hc, IH.
Qed.

Lemma count_digits_take n (s : str) : (count_digits (take n s) <= count_digits s)%nat.
Proof.
  rewrite <- (take_drop n s) at 2. rewrite count_digits_app. lia.
Qed.

(** A match holds as many digits as the pattern asks for. *)
Lemma match_needs_digits items : forall pw s n,
  match_here items pw s = Some n -> (min_digits items <= count_digits (take n s))%nat.
Proof.
  induction items as [|[k lo hi|] rest IH]; intros pw s n H.
  - cbn. lia.
  - cbn [match_here] in H. apply backtrack_Some in H as (j & [Hlo Hj] & H).
    destruct (match_here rest _ (drop j s)) as [r|] eqn:E; [|done].
    injection H as <-. apply IH in E.
    rewrite <- take_take_drop, count_digits_app.
    destruct k; cbn [min_digits]; try lia.
    pose proof (greedy_le Digit hi s). pose proof (span_le Digit s).
    rewrite (count_digits_all (take j s)) by (apply span_take; lia).
    rewrite length_take_le by lia. lia.
  - cbn [match_here] in H. cbn [min_digits].
    destruct (xorb pw (head_word s)); [by eapply IH|done].
Qed.

Lemma few_digits_nomatch items : forall s pw,
  (count_digits s < min_digits items)%nat -> nomatch items pw s.
Proof.
  induction s as [|c s IH]; intros pw H.
  - split; [|done]. destruct (match_here items pw []) as [n|] eqn:E; [|done].
    apply match_needs_digits in E. pose proof (count_digits_take n []). lia.
  - split.
    + destruct (match_here items pw (c :: s)) as [n|] eqn:E; [|done].
      apply match_needs_digits in E. pose proof (count_digits_take n (c :: s)). lia.
    + apply IH. cbn in H. lia.
Qed.

Lemma phone_patterns_digits : Forall (fun Q => (8 <= min_digits Q)%nat) phone_patterns.
Proof. unfold phone_patterns. repeat constructor; cbn; lia. Qed.

(** X21.  A text with fewer than eight decimal digits passes the redaction
    unchanged: every pattern, the catch-all included, needs eight digits
    at least to match. *)
Theorem few_digits_unchanged s :
  (count_digits s < 8)%nat -> mask_phone_numbers s = s.
Proof.
  intros H. unfold mask_phone_numbers. destruct s as [|c s]; [done|].
  rewrite sub_all_fixed.
  - apply nomatch_fixed, few_digits_nomatch. exact H.
  - eapply Forall_impl; [apply phone_patterns_digits|].
    intros Q HQ. cbn beta in HQ. apply few_digits_nomatch. lia.
Qed.

Lemma sub_aux_length items :
  (8 <= min_len items)%nat -> forall s pw skip,
  (length (sub_aux items pw skip s) <= length s - skip)%nat.
Proof.
  intros Hmin. induction s as [|c s IH]; intros pw skip; [cbn; lia|].
  cbn [sub_aux]. destruct skip as [|k]; [|cbn [length]; specialize (IH (is_word c) k); lia].
  assert (Hcopy : (length (c :: sub_aux items (is_word c) 0 s) <= length (c :: s) - 0)%nat).
  { cbn [length]. specialize (IH (is_word c) 0%nat). lia. }
  destruct (match_here items pw (c :: s)) as [[|n]|] eqn:E; [done| |done].
  apply match_here_sound in E as (Hlen & Hn & _).
  rewrite length_app, hidden_eq. cbn [length] in *. specialize (IH (is_word c) n). lia.
Qed.

Lemma phone_patterns_lengths : Forall (fun Q => (8 <= min_len Q)%nat) phone_patterns.
Proof. unfold phone_patterns. repeat constructor; cbn; lia. Qed.

Lemma sub_all_length ps :
  Forall (fun Q => (8 <= min_len Q)%nat) ps ->
  forall s, (length (sub_all ps s) <= length s)%nat.
Proof.
  induction 1 as [|p ps Hp _ IH]; intros s; [done|]. cbn.
  etransitivity; [apply IH|]. pose proof (sub_aux_length p Hp s false 0). unfold sub. lia.
Qed.

(** X22.  The redaction never makes a text longer: whatever a pattern
    matches has eight characters at least, as many as the placeholder. *)
Theorem mask_never_lengthens s :
  (length (mask_phone_numbers s) <= length s)%nat.
Proof.
  unfold mask_phone_numbers. destruct s as [|c s]; [done|].
  pose proof (sub_aux_length catch_all ltac:(cbn; lia)
                (sub_all phone_patterns (c :: s)) false 0).
  pose proof (sub_all_length phone_patterns phone_patterns_lengths (c :: s)).
  unfold sub. lia.
Qed.

End Properties.

(** * The theorems at work *)

#[local] Existing Instance latin1_db.

(** The run that pairs Alice and Bob is a run of the manager. *)
Lemma alice_and_bob_reachable : reachable alice_and_bob.
Proof.
  eapply rtc_l.
  { eapply (step_message alice meet None (env_at 1)); [done|].
    vm_compute. reflexivity. }
  eapply rtc_l; [|apply rtc_refl].
  eapply (step_message bob meet None (env_at 2)); [done|].
  vm_compute. reflexivity.
Qed.

(** C1 at work: once Alice and Bob are paired, nobody waits and is paired. *)
Lemma waiting_or_paired_witness :
  reachable alice_and_bob /\ exclusive alice_and_bob.
Proof.
  split; [exact alice_and_bob_reachable|].
  exact (waiting_or_paired alice_and_bob alice_and_bob_reachable).
Defined.

(** C1 as stated fails: [find_partner] called for Alice while she is paired
    with Bob puts her in the waiting queue and leaves her in the pair map. *)
Lemma find_partner_breaks_exclusivity :
  reachable alice_and_bob /\
  exists r m', find_partner alice (lit "epoch-3") alice_and_bob = Some (r, m') /\
               waiting alice m' /\ paired alice m'.
Proof.
  split; [exact alice_and_bob_reachable|].
  eexists _, _. split; [vm_compute; reflexivity|].
  split; [left; cbn; set_solver | by exists bob].
Qed.

(** Nor does [find_partner] preserve it for the empty identifier, which the
    handlers read as no partner: called for the empty identifier and then
    for Bob, neither of them paired at the time, it pairs the two, and the
    [#meet] Bob sends next leaves him waiting and paired. *)
Lemma find_partner_empty_id_breaks_exclusivity :
  exists r1 m1 r2 m2 r3 m3,
    get_partner [] init = None /\
    find_partner [] (lit "epoch-1") init = Some (r1, m1) /\
    get_partner bob m1 = None /\
    find_partner bob (lit "epoch-2") m1 = Some (r2, m2) /\
    process_message bob meet None (env_at 3) m2 = Some (r3, m3) /\
    waiting bob m3 /\ paired bob m3.
Proof.
  eexists _, _, _, _, _, _.
  split_and!; [reflexivity|vm_compute; reflexivity|reflexivity|vm_compute; reflexivity|
               vm_compute; reflexivity| |].
  - left. apply list_elem_of_here.
  - by exists [].
Qed.

(** C2 fails on a user whose identifier is the empty string: the handlers
    read an empty partner identifier as no partner.  After the four
    messages of [after_empty_id] the pair map sends the empty identifier to
    Bob and Bob to Carol, and the stored epochs of the empty identifier and
    of Bob differ. *)
Lemma empty_id_breaks_symmetry :
  run [([], meet); (bob, meet); (bob, meet); (carol, meet)] = Some after_empty_id /\
  active_pairs after_empty_id !! [] = Some bob /\
  active_pairs after_empty_id !! bob = Some carol /\
  (partner_session_id <$> user_states after_empty_id !! [])
  = Some (Some (lit "epoch-2")) /\
  (partner_session_id <$> user_states after_empty_id !! bob)
  = Some (Some (lit "epoch-4")).
Proof. split_and!; vm_compute; reflexivity. Qed.

(** C3 as stated fails: with masking on (the default), the confirmation
    Bob gets for [#r call me at 9876543210] echoes the redacted text. *)
Lemma confirmation_echoes_redacted :
  match process_message bob (lit "#r call me at 9876543210") None
          (env_at 3) alice_and_bob with
  | Some (r, m') =>
      r = sent_confirmation (lit "User_bob") (lit "call me at [hidden]") /\
      r <> sent_confirmation (lit "User_bob") (lit "call me at 9876543210") /\
      pending_messages m' !! alice = Some [lit "call me at [hidden]"]
  | None => False
  end.
Proof.
  vm_compute. split_and!; [reflexivity| |reflexivity].
  intros H. apply (f_equal length) in H. discriminate H.
Qed.

(** C3 at work: Bob, paired with Alice, relays a phone number. *)
Lemma relay_confirmation_echo_witness :
  exists m',
    process_message bob (lit "#r call me at 9876543210") None (env_at 3)
      alice_and_bob
    = Some (sent_confirmation (lit "User_bob") (lit "call me at [hidden]"), m') /\
    pending_messages m' !! alice
    = Some (push_capped (default [] (pending_messages alice_and_bob !! alice))
              (redacted bob_state (lit "call me at [hidden]"))).
Proof.
  apply (relay_confirmation_echo alice_and_bob bob
           (lit "#r call me at 9876543210") None (env_at 3) alice bob_state alice_state
           (lit "call me at [hidden]")); try done; vm_compute; reflexivity.
Defined.

(** C4 at work: Alice has her connect notification pending and tries to relay. *)
Lemma relay_yields_to_notification_witness :
  exists note m',
    last [connected_note (lit "User_bob")] = Some note /\
    _handle_message_routing alice (lit "hello") alice_and_bob = Some (note, m') /\
    pending_messages m' = pending_messages alice_and_bob /\
    pending_notifications m' !! alice = None.
Proof.
  apply (relay_yields_to_notification alice_and_bob alice (lit "hello")
           [connected_note (lit "User_bob")]); [reflexivity| |done].
  vm_compute. reflexivity.
Defined.

(** C10 at work: Bob is matched with Alice, who waits. *)
Lemma pairing_notifies_partner_witness :
  exists nick older,
    pending_notifications paired_directly !! alice
    = Some (older ++ [connected_note nick]) /\
    forall message, exists m2,
      _handle_message_routing alice message paired_directly
      = Some (connected_note nick, m2) /\
      pending_messages m2 = pending_messages paired_directly.
Proof.
  apply (pairing_notifies_partner alice_waiting bob (lit "epoch-2") alice
           paired_directly); [reflexivity|].
  vm_compute. reflexivity.
Defined.

(** C7 at work: Bob relays 101 messages to Alice. *)
Lemma queue_keeps_latest_100_witness :
  exists m',
    relay_all bob hundred_and_one alice_and_bob = Some (tt, m') /\
    pending_messages m' !! alice
    = Some (drop 1 (map (redacted bob_state) hundred_and_one)).
Proof.
  apply (queue_keeps_latest_100 alice_and_bob bob alice bob_state alice_state
           hundred_and_one); try done; vm_compute; try reflexivity. lia.
Defined.

(** C8 at work: Alice, Bob and Carol wait in this order, Dave asks for a match. *)
Lemma find_partner_fifo_witness :
  exists m',
    find_partner (lit "dave") (lit "epoch-1") three_waiting = Some (Some alice, m') /\
    active_pairs m' !! lit "dave" = Some alice /\
    active_pairs m' !! alice = Some (lit "dave") /\
    (alice ∉ available_set m') /\ (lit "dave" ∉ available_set m').
Proof.
  apply (find_partner_fifo three_waiting (lit "dave") (lit "epoch-1") [] alice [bob; carol]);
    [reflexivity | reflexivity | constructor | cbn; set_solver | done].
Defined.

(** C9 at work: a new user sends a bare [#r]. *)
Lemma empty_relay_usage_witness :
  exists m' st',
    process_message alice (lit "#r") None (env_at 1) init = Some (usage, m') /\
    available_users m' = available_users init /\
    available_set m' = available_set init /\
    active_pairs m' = active_pairs init /\
    pending_notifications m' = pending_notifications init /\
    pending_messages m' = pending_messages init /\
    (forall v, v <> alice -> user_states m' !! v = user_states init !! v) /\
    user_states m' !! alice = Some st' /\
    last_activity st' = now (env_at 1) /\
    (forall st, user_states init !! alice = Some st ->
                st' = set_last_activity (now (env_at 1)) st).
Proof.
  apply (empty_relay_usage init alice (lit "#r") None (env_at 1)); [reflexivity|].
  left. vm_compute. reflexivity.
Defined.

(** C9 as stated fails: the bare [#r] of a new user creates her profile,
    and the bare [#R] she sends later moves her last activity. *)
Lemma empty_relay_touches_profile :
  match process_message alice (lit "#r") None (env_at 1) init with
  | Some (r, m1) =>
      r = usage /\ user_states init !! alice = None /\
      (last_activity <$> user_states m1 !! alice) = Some 1%Z /\
      match process_message alice (lit "#R") None (env_at 2) m1 with
      | Some (r', m2) =>
          r' = usage /\ (last_activity <$> user_states m2 !! alice) = Some 2%Z
      | None => False
      end
  | None => False
  end.
Proof. vm_compute. split_and!; reflexivity. Qed.

(** C6 as stated fails: eight digits glued to a letter stand between no word
    boundaries, and no other rule takes fewer than ten digits. *)
Lemma glued_digits_kept :
  mask_phone_numbers (lit "a12345678") = lit "a12345678" /\
  has_digit_run 8 (mask_phone_numbers (lit "a12345678")) = true.
Proof. split; reflexivity. Qed.

(** C6 at work: the eight digits left in [a12345678] touch the letter. *)
Lemma bounded_digit_runs_masked_witness :
  after_word false (lit "a") = true \/ head_word [] = true.
Proof.
  apply (proj1 (bounded_digit_runs_masked (U := latin1_db))
           (lit "a12345678") (lit "a") (lit "12345678") []);
    [reflexivity | repeat constructor | cbn; lia].
Defined.

(** * The further properties at work *)

Lemma alice_waiting_served : served alice_waiting.
Proof.
  eapply rtc_l; [|apply rtc_refl].
  eapply (serve_message alice meet None (env_at 1)); [done|].
  vm_compute. reflexivity.
Qed.

Lemma alice_and_bob_served : served alice_and_bob.
Proof.
  eapply rtc_l.
  { eapply (serve_message alice meet None (env_at 1)); [done|].
    vm_compute. reflexivity. }
  eapply rtc_l; [|apply rtc_refl].
  eapply (serve_message bob meet None (env_at 2)); [done|].
  vm_compute. reflexivity.
Qed.

(** X1 at work: Alice waits alone. *)
Lemma at_most_one_waits_witness :
  (length (available_users alice_waiting) <= 1)%nat /\
  (size (available_set alice_waiting) <= 1)%nat.
Proof.
  apply (at_most_one_waits alice_waiting).
  exact (served_reachable alice_waiting alice_waiting_served).
Defined.

(** X2 at work: half an hour and more after Alice and Bob were paired the
    sweep finds them inactive, and never returns. *)
Lemma cleanup_evicts_nobody_witness :
  match cleanup_inactive_users 30 2000000000 alice_and_bob with
  | Some (_, m') =>
      m' = alice_and_bob /\
      forall u st, user_states alice_and_bob !! u = Some st ->
        inactive 30 2000000000 st = false
  | None =>
      exists u st, user_states alice_and_bob !! u = Some st /\
        inactive 30 2000000000 st = true
  end.
Proof. apply (cleanup_evicts_nobody 30 2000000000 alice_and_bob). reflexivity. Defined.

(** The test of the sweep is made on floats: a profile one microsecond
    older than a timeout of 286331154 minutes, more than [2**34] seconds,
    is not found inactive, since its age in seconds rounds to the timeout;
    one microsecond older than half an hour is. *)
Lemma inactive_rounds :
  inactive 286331154 17179869240000002 alice_state = false /\
  (286331154 * 60 * 1000000 < 17179869240000002 - last_activity alice_state)%Z /\
  inactive 30 1800000002 alice_state = true /\
  inactive 30 1800000001 alice_state = false.
Proof. split_and!; [reflexivity|reflexivity|reflexivity|reflexivity]. Qed.

(** X3 at work: the tool called right after Alice and Bob were paired. *)
Lemma cleanup_inactive_reports_none_witness :
  alice_and_bob = alice_and_bob /\
  cleanup_report 30 0 2 1
  = cleanup_report 30 0 (Z.of_nat (size (user_states alice_and_bob)))
      (Z.of_nat (size (active_pairs alice_and_bob) / 2)).
Proof.
  apply (cleanup_inactive_reports_none 30 5 alice_and_bob (cleanup_report 30 0 2 1)
           alice_and_bob); [reflexivity|].
  vm_compute. reflexivity.
Defined.

(** X4 at work: Alice, paired with Bob, ends the chat. *)
Lemma end_chat_leaves_idle_witness :
  exists m',
    end_chat alice alice_and_bob = Some (active_pairs alice_and_bob !! alice, m') /\
    ~ waiting alice m' /\ ~ paired alice m'.
Proof.
  apply (end_chat_leaves_idle alice alice_and_bob).
  exact (reachable_Inv alice_and_bob alice_and_bob_reachable).
Defined.

(** X5 at work: Alice says [#bye] to Bob. *)
Lemma bye_unpairs_both_witness :
  exists m',
    _handle_bye_command alice alice_and_bob = Some (chat_ended, m') /\
    active_pairs m' !! alice = None /\ active_pairs m' !! bob = None /\
    (forall st, user_states m' !! alice = Some st ->
                partner_id st = None /\ partner_session_id st = None) /\
    (forall st, user_states m' !! bob = Some st ->
                partner_id st = None /\ partner_session_id st = None) /\
    pending_notifications m' !! bob
    = Some (default [] (pending_notifications alice_and_bob !! bob) ++ [left_note]) /\
    (forall x, x <> bob ->
       pending_notifications m' !! x = pending_notifications alice_and_bob !! x) /\
    available_users m' = available_users alice_and_bob /\
    available_set m' = available_set alice_and_bob.
Proof.
  apply (bye_unpairs_both alice bob alice_and_bob); [reflexivity| |done].
  vm_compute. reflexivity.
Defined.

(** X6 at work: the profile of Alice once she is paired with Bob. *)
Lemma profiles_mirror_pairs_witness :
  (forall st, user_states alice_and_bob !! alice = Some st ->
     user_id st = alice /\ nickname st <> [] /\
     partner_id st = active_pairs alice_and_bob !! alice /\
     (partner_session_id st = None <-> active_pairs alice_and_bob !! alice = None)) /\
  (is_Some (active_pairs alice_and_bob !! alice) ->
   is_Some (user_states alice_and_bob !! alice)) /\
  active_pairs alice_and_bob !! alice <> Some alice.
Proof. exact (profiles_mirror_pairs alice_and_bob alice alice_and_bob_served). Defined.



(** X9 at work: Bob, paired with Alice, sends a plain message. *)
Lemma non_command_gets_tip_witness :
  process_message bob (lit "hello there") None (env_at 3) alice_and_bob
  = Some (strict_tip, touch bob None (now (env_at 3)) alice_and_bob).
Proof.
  apply (non_command_gets_tip alice_and_bob bob (lit "hello there") None (env_at 3));
    [exact alice_and_bob_served|].
  vm_compute. reflexivity.
Defined.





(** X14 at work: Alice sends [#hide] twice. *)
Lemma hide_toggles_witness :
  exists m1 m2,
    _handle_hide_command alice 3 alice_and_bob
    = Some (masking_reply (negb (masking_of alice alice_and_bob)), m1) /\
    masking_of alice m1 = negb (masking_of alice alice_and_bob) /\
    _handle_hide_command alice 4 m1
    = Some (masking_reply (masking_of alice alice_and_bob), m2) /\
    masking_of alice m2 = masking_of alice alice_and_bob.
Proof. apply (hide_toggles alice_and_bob alice 3 4). reflexivity. Defined.


(** X17 at work: Alice, known as [User_alice], writes as [Alicia]. *)
Lemma nickname_is_permanent_witness :
  exists st', user_states after_rename !! alice = Some st' /\
              nickname st' = nickname alice_state /\ user_id st' = user_id alice_state.
Proof.
  apply (nickname_is_permanent alice_and_bob alice (lit "hello") (Some (lit "Alicia"))
           (env_at 3) strict_tip after_rename alice alice_state);
    [exact alice_and_bob_served|done| |]; vm_compute; reflexivity.
Defined.

(** X18 at work: Dave joins Alice, Bob and Carol in the queue, and leaves. *)
Lemma queue_add_remove_round_trip_witness :
  _queue_remove (lit "dave") (_queue_add (lit "dave") three_waiting) = three_waiting.
Proof.
  apply (queue_add_remove_round_trip three_waiting (lit "dave")).
  - cbn. set_solver.
  - cbn. intros H. repeat (apply elem_of_union in H as [H|H]);
      apply elem_of_singleton in H; apply (f_equal length) in H; discriminate H.
Defined.

(** X19 at work: the token sent with a blank before and a line feed after. *)
Lemma token_accepted_up_to_padding_witness :
  load_access_token (Some (lit "secret")) ([32] ++ lit "secret" ++ [10])
  = Some (mkAccessToken ([32] ++ lit "secret" ++ [10]) (lit "puch-random-connect")
            [lit "*"] None).
Proof.
  apply (token_accepted_up_to_padding [32] (lit "secret") [10]);
    [repeat constructor|repeat constructor|done].
Defined.

(** X20 at work: nine digits glued to a letter are kept, ten would not be. *)
Lemma mask_leaves_no_ten_digits_witness : (length (lit "123456789") < 10)%nat.
Proof.
  apply (mask_leaves_no_ten_digits (lit "a123456789") (lit "a") (lit "123456789") []);
    [vm_compute; reflexivity|repeat constructor].
Defined.

(** X21 at work: seven digits. *)
Lemma few_digits_unchanged_witness :
  mask_phone_numbers (lit "room 1234567") = lit "room 1234567".
Proof. apply (few_digits_unchanged (lit "room 1234567")). vm_compute. lia. Defined.
